(** * claircore: the AWS updater, the driver contract and the distlock contract

    A shallow embedding of [aws/updater.go], [libvuln/driver/updater.go]
    and [pkg/distlock/locker.go].

    Go values are modelled as follows.
    - A Go [string] is a [string]; [time.Duration] is a [Z] counting
      nanoseconds.
    - A function returning [(T, error)] where the code only looks at the
      value when the error is nil returns [T + error]; a nil error is [None]
      in an [option error]; a nil pointer or nil interface is [None].
    - A method with a pointer receiver that may write to the receiver takes
      the receiver's state and returns the state afterwards.
    - Calls that leave the process (HTTP requests made by the client) are
      answered by an [Upstream] value and recorded in a log of [Call]s. *)

From Stdlib Require Import String List ZArith Bool Lia.
Import ListNotations.
Local Open Scope string_scope.
Local Open Scope list_scope.

Set Implicit Arguments.

(* ------------------------------------------------------------------ *)
(** ** Go errors *)

(** Error values are compared by identity.  The only package-level error
    value the modelled code names is [driver.Unchanged]; it has a constructor
    of its own, so that no error allocated during a call is equal to it, even
    one with the same text.
    - [errorString]: what [errors.New] and [fmt.Errorf] without [%w] allocate,
      and what a failing library call hands back;
    - [wrapError]: what [fmt.Errorf] with [%w] allocates. *)
Inductive error : Type :=
| UnchangedValue
| errorString (text : string)
| wrapError (text : string) (err : error).

(** [err.Error()] *)
Definition Error (e : error) : string :=
  match e with
  | UnchangedValue => "database contents unchanged"
  | errorString s => s
  | wrapError s _ => s
  end.

(** [fmt.Errorf(prefix + "%v", err)] *)
Definition Errorf_v (prefix : string) (err : error) : error :=
  errorString (prefix ++ Error err).

(** [fmt.Errorf(prefix + "%w", err)] *)
Definition Errorf_w (prefix : string) (err : error) : error :=
  wrapError (prefix ++ Error err) err.

(** [time.Duration], in nanoseconds. *)
Definition Duration := Z.
Definition Second : Duration := 1000000000%Z.

(** [context.Context], as far as the code builds contexts:
    [context.WithTimeout(parent, d)]. *)
Inductive Context : Type :=
| Background
| WithTimeout (parent : Context) (d : Duration).

(* ------------------------------------------------------------------ *)
(** ** libvuln/driver/updater.go *)

Module driver.

(** [var Unchanged = errors.New("database contents unchanged")] *)
Definition Unchanged : error := UnchangedValue.

(** [type Fingerprint string] *)
Definition Fingerprint := string.

(** [type ConfigUnmarshaler func(interface{}) error], applied to a pointer
    to a value of type [T].  The function may assign anything through the
    pointer, the whole struct included: it receives the value and returns
    the value it leaves behind, with its error. *)
Definition ConfigUnmarshaler (T : Type) : Type := T -> T * option error.

End driver.

(* ------------------------------------------------------------------ *)
(** ** github.com/quay/alas: the decoded feed, as far as updater.go reads it *)

Module alas.

Record Package := { Name : string; Version : string; Release : string }.

Record Reference := { Href : string }.

Record UpdateIssued := { Date : string }.

Record Update := {
  ID : string;
  Description : string;
  Issued : UpdateIssued;
  Severity : string;
  References : list Reference;
  Packages : list Package
}.

(** The field is named [Updates] in Go, as the struct is. *)
Record Updates := { Updates_ : list Update }.

Record RepoChecksum := { Sum : string }.

Record Repo := { Checksum : RepoChecksum }.

End alas.

(* ------------------------------------------------------------------ *)
(** ** claircore: the records Parse builds, as far as updater.go writes them *)

Module claircore.

Record Package := { Package_Name : string; Package_Kind : string }.

(** The field [Package_] is named [Package] in Go, as its struct is. *)
Record Vulnerability (Time SeverityT Distribution : Type) := {
  Updater : string;
  Name : string;
  Description : string;
  Issued : Time;
  Links : string;
  Severity : string;
  NormalizedSeverity : SeverityT;
  Dist : Distribution;
  Package_ : option Package;         (* *claircore.Package *)
  FixedInVersion : string
}.

End claircore.

(* ------------------------------------------------------------------ *)
(** ** aws/updater.go *)

Module aws.

(** What updater.go uses and src/ does not contain: types and functions of
    package [aws] declared in other files ([Release], [releaseToDist],
    [NormalizeSeverity]), of [claircore], of [alas] and of Go's library
    ([time.Parse], [url.Parse], [xml.Decoder.Decode]).  They are taken as
    parameters; every theorem holds for all of them. *)
Class Externals : Type := {
  Release : Type;
  (** how [fmt.Sprintf("%v", release)] prints a release *)
  Release_fmt : Release -> string;
  ReadCloser : Type;
  http_Client : Type;
  URL : Type;
  Time : Type;
  Distribution : Type;
  SeverityT : Type;
  RepoMD : Type;
  RepoType : Type;
  UpdateInfo : RepoType;
  releaseToDist : Release -> Distribution;
  NormalizeSeverity : string -> SeverityT;
  (** [time.Parse(layout, value)] *)
  time_Parse : string -> string -> Time + error;
  (** [url.Parse(rawurl)] *)
  url_Parse : string -> URL + error;
  (** [xml.NewDecoder(contents).Decode(&updates)] *)
  xml_Decode : ReadCloser -> alas.Updates + error;
  (** [repoMD.Repo(t, baseURL)] *)
  RepoMD_Repo : RepoMD -> RepoType -> string -> alas.Repo + error
}.

Section Updater.

Context {E : Externals}.

Definition Vulnerability : Type :=
  claircore.Vulnerability Time SeverityT Distribution.

(** [Client], declared in another file of the package; updater.go writes
    its fields [c] and [mirrors]. *)
Record Client := { c : option http_Client; mirrors : list URL }.

Record Updater := {
  release : Release;
  Timeout : Duration;
  Mirrors : list string;
  client : option Client            (* *Client *)
}.

Definition set_client (u : Updater) (cl : option Client) : Updater :=
  {| release := release u; Timeout := Timeout u;
     Mirrors := Mirrors u; client := cl |}.

(** Modelled from the spec: the constant [defaultOpTimeout] is declared
    outside src/; the comment on the field [Timeout] ("The default is 15
    seconds") and section 4.1 of the spec give its value. *)
Definition defaultOpTimeout : Duration := (15 * Second)%Z.

(** [NewUpdater]: the pointer it returns is never nil. *)
Definition NewUpdater (release : Release) : option Updater * option error :=
  (Some {| release := release; Timeout := defaultOpTimeout;
           Mirrors := []; client := None |},
   None).

Definition Name (u : Updater) : string :=
  "aws-" ++ Release_fmt (release u) ++ "-updater".

(** *** Calls that leave the process *)

Inductive Call : Type :=
| CallNewClient (ctx : Context) (r : Release)
| CallRepoMD (ctx : Context)
| CallUpdates (ctx : Context)
| CallGetMirrors (ctx : Context) (r : Release).

(** What the network answers while one method runs.  The methods of
    [*Client] have a pointer receiver: they return the client as they
    leave it. *)
Record Upstream := {
  NewClient : Context -> Release -> Client + error;
  Client_RepoMD : Client -> Context -> Client * (RepoMD + error);
  Client_Updates : Client -> Context -> Client * (option ReadCloser + error);
  Client_getMirrors : Client -> Context -> Release -> Client * option error
}.

(** A computation that logs the calls it makes. *)
Definition IO (A : Type) : Type := list Call * A.

Definition ret {A} (a : A) : IO A := ([], a).

Definition bind {A B} (m : IO A) (k : A -> IO B) : IO B :=
  let (l1, a) := m in let (l2, b) := k a in (l1 ++ l2, b).

Definition call {A} (ev : Call) (answer : A) : IO A := ([ev], answer).

Definition log {A} (m : IO A) : list Call := fst m.
Definition value {A} (m : IO A) : A := snd m.

Notation "x <- m ;; k" := (bind m (fun x => k))
  (at level 61, m at next level, right associativity).
Notation "' pat <- m ;; k" := (bind m (fun x => match x with pat => k end))
  (at level 61, pat pattern, m at next level, right associativity).

(** *** Fetch *)

(** Where a method of the client leaves the client: in [u.client] when the
    method ran on it, nowhere when it ran on a client made for this call. *)
Definition keep_client (u : Updater) (cl : Client) : Updater :=
  match client u with
  | Some _ => set_client u (Some cl)
  | None => u
  end.

(** What [Fetch] returns: the content stream, the Fingerprint, the error. *)
Definition Fetched : Type :=
  option ReadCloser * driver.Fingerprint * option error.

Definition Fetch (W : Upstream) (u : Updater) (ctx : Context)
    (fingerprint : driver.Fingerprint) : IO (Updater * Fetched) :=
  r <- match client u with
       | Some cl => ret (inl cl)
       | None => call (CallNewClient ctx (release u))
                      (NewClient W ctx (release u))
       end ;;
  match r with
  | inr err =>
      ret (u, (None, "", Some (Errorf_v "failed to create client: " err)))
  | inl cl =>
      let tctx := WithTimeout ctx (Timeout u) in
      '(cl, repoMD) <- call (CallRepoMD tctx) (Client_RepoMD W cl tctx) ;;
      match repoMD with
      | inr err =>
          ret (keep_client u cl,
               (None, "",
                Some (Errorf_v "failed to retrieve repo metadata: " err)))
      | inl repoMD =>
          match RepoMD_Repo repoMD UpdateInfo "" with
          | inr err =>
              ret (keep_client u cl,
                   (None, "",
                    Some (Errorf_v
                            "updates repo metadata could not be retrieved: "
                            err)))
          | inl updatesRepoMD =>
              let tctx := WithTimeout ctx (Timeout u) in
              '(cl, rc) <- call (CallUpdates tctx) (Client_Updates W cl tctx) ;;
              match rc with
              | inr err =>
                  ret (keep_client u cl,
                       (None, "",
                        Some (Errorf_v "failed to retrieve update info: " err)))
              | inl rc =>
                  ret (keep_client u cl,
                       (rc, alas.Sum (alas.Checksum updatesRepoMD), None))
              end
          end
      end
  end.

(** *** Parse *)

(** [refsToLinks] *)
Definition refsToLinks (u : alas.Update) : string :=
  let out :=
    fold_left (fun out ref => out ++ [alas.Href ref]) (alas.References u) []
  in String.concat " " out.

(** [unpack]: [v := *partial], then the two package fields and
    [FixedInVersion] are written. *)
Definition unpack (u : Updater) (partial : Vulnerability)
    (packages : list alas.Package) : list Vulnerability :=
  fold_left
    (fun out alasPKG =>
       let v : Vulnerability :=
         {| claircore.Updater := claircore.Updater partial;
            claircore.Name := claircore.Name partial;
            claircore.Description := claircore.Description partial;
            claircore.Issued := claircore.Issued partial;
            claircore.Links := claircore.Links partial;
            claircore.Severity := claircore.Severity partial;
            claircore.NormalizedSeverity := claircore.NormalizedSeverity partial;
            claircore.Dist := claircore.Dist partial;
            claircore.Package_ :=
              Some {| claircore.Package_Name := alas.Name alasPKG;
                      claircore.Package_Kind := "binary" |};
            claircore.FixedInVersion :=
              alas.Version alasPKG ++ "-" ++ alas.Release alasPKG |}
       in out ++ [v])
    packages [].

(** The struct literal [partial] of [Parse]; the fields it does not name
    have their zero value. *)
Definition partial_of (u : Updater) (dist : Distribution)
    (update : alas.Update) (issued : Time) : Vulnerability :=
  {| claircore.Updater := Name u;
     claircore.Name := alas.ID update;
     claircore.Description := alas.Description update;
     claircore.Issued := issued;
     claircore.Links := refsToLinks update;
     claircore.Severity := alas.Severity update;
     claircore.NormalizedSeverity := NormalizeSeverity (alas.Severity update);
     claircore.Dist := dist;
     claircore.Package_ := None;
     claircore.FixedInVersion := "" |}.

(** The loop of [Parse], from the state [vulns] on. *)
Fixpoint Parse_loop (u : Updater) (dist : Distribution)
    (updates : list alas.Update) (vulns : list Vulnerability)
  : list Vulnerability * option error :=
  match updates with
  | [] => (vulns, None)
  | update :: rest =>
      match time_Parse "2006-01-02 15:04" (alas.Date (alas.Issued update)) with
      | inr err => (vulns, Some err)
      | inl issued =>
          let partial := partial_of u dist update issued in
          Parse_loop u dist rest
            (vulns ++ unpack u partial (alas.Packages update))
      end
  end.

Definition Parse (u : Updater) (contents : ReadCloser)
  : list Vulnerability * option error :=
  match xml_Decode contents with
  | inr err => ([], Some (Errorf_v "failed to unmarshal updates xml: " err))
  | inl updates =>
      let dist := releaseToDist (release u) in
      Parse_loop u dist (alas.Updates_ updates) []
  end.

(** *** Configure *)

(** The loop of [Configure] over [u.Mirrors], from [u.client.mirrors = acc]
    on: the mirrors of the client when the loop is left, and the error it is
    left with. *)
Fixpoint Configure_loop (ms : list string) (acc : list URL)
  : list URL * option error :=
  match ms with
  | [] => (acc, None)
  | m :: rest =>
      match url_Parse m with
      | inr err => (acc, Some (Errorf_w "failed to create client: " err))
      | inl mu => Configure_loop rest (acc ++ [mu])
      end
  end.

Definition Configure (W : Upstream) (u : Updater) (ctx : Context)
    (f : driver.ConfigUnmarshaler Updater) (c : option http_Client)
  : IO (Updater * option error) :=
  let (u, err) := f u in
  match err with
  | Some err => ret (u, Some err)
  | None =>
      let cl := {| c := c; mirrors := [] |} in
      match Configure_loop (Mirrors u) (mirrors cl) with
      | (parsed, Some err) =>
          ret (set_client u (Some {| c := c; mirrors := parsed |}), Some err)
      | (parsed, None) =>
          let cl := {| c := c; mirrors := parsed |} in
          if Nat.eqb (List.length (mirrors cl)) 0 then
            let tctx := WithTimeout ctx (Timeout u) in
            '(cl, err) <- call (CallGetMirrors tctx (release u))
                               (Client_getMirrors W cl tctx (release u)) ;;
            match err with
            | Some err =>
                ret (set_client u (Some cl),
                     Some (Errorf_w "failed to create client: " err))
            | None => ret (set_client u (Some cl), None)
            end
          else ret (set_client u (Some cl), None)
      end
  end.

End Updater.

End aws.

(* ------------------------------------------------------------------ *)
(** ** What the claims talk about, in terms of the model *)

Section Vocabulary.

Context {E : aws.Externals}.

Definition stream_of (r : aws.Fetched) : option aws.ReadCloser := fst (fst r).
Definition fingerprint_of (r : aws.Fetched) : driver.Fingerprint := snd (fst r).
Definition error_of (r : aws.Fetched) : option error := snd r.

(** The client [Fetch] talks through: the bound one, or the one it creates
    for the call. *)
Definition client_used (W : aws.Upstream) (u : aws.Updater) (ctx : Context)
  : option aws.Client :=
  match aws.client u with
  | Some cl => Some cl
  | None =>
      match aws.NewClient W ctx (aws.release u) with
      | inl cl => Some cl
      | inr _ => None
      end
  end.

(** The checksum of the updates resource that [Fetch] would read from the
    upstream [W] through the client [cl], when the metadata can be read. *)
Definition upstream_checksum (W : aws.Upstream) (cl : aws.Client) (tctx : Context)
  : option string :=
  match snd (aws.Client_RepoMD W cl tctx) with
  | inl repoMD =>
      match aws.RepoMD_Repo repoMD aws.UpdateInfo "" with
      | inl updatesRepoMD => Some (alas.Sum (alas.Checksum updatesRepoMD))
      | inr _ => None
      end
  | inr _ => None
  end.





(** The issue date of an advisory parses under the layout [Parse] uses. *)
Definition issued_at (update : alas.Update) (t : aws.Time) : Prop :=
  aws.time_Parse "2006-01-02 15:04" (alas.Date (alas.Issued update)) = inl t.

Definition date_parses (update : alas.Update) : Prop :=
  exists t, issued_at update t.

(** The issue date of an advisory does not parse: [time.Parse] returns the
    error [err]. *)
Definition date_error (update : alas.Update) (err : error) : Prop :=
  aws.time_Parse "2006-01-02 15:04" (alas.Date (alas.Issued update)) = inr err.

Definition date_fails (update : alas.Update) : Prop :=
  exists err, date_error update err.

(** The record the spec describes for one affected package of one advisory:
    the advisory-level fields copied, the package-level fields filled in. *)
Definition record_for (u : aws.Updater) (update : alas.Update)
    (issued : aws.Time) (pkg : alas.Package) : aws.Vulnerability :=
  {| claircore.Updater := aws.Name u;
     claircore.Name := alas.ID update;
     claircore.Description := alas.Description update;
     claircore.Issued := issued;
     claircore.Links := String.concat " " (map alas.Href (alas.References update));
     claircore.Severity := alas.Severity update;
     claircore.NormalizedSeverity := aws.NormalizeSeverity (alas.Severity update);
     claircore.Dist := aws.releaseToDist (aws.release u);
     claircore.Package_ :=
       Some {| claircore.Package_Name := alas.Name pkg;
               claircore.Package_Kind := "binary" |};
     claircore.FixedInVersion := alas.Version pkg ++ "-" ++ alas.Release pkg |}.

(** One record per affected package, in the order of the packages. *)
Definition records_for (u : aws.Updater) (update : alas.Update)
    (issued : aws.Time) : list aws.Vulnerability :=
  map (record_for u update issued) (alas.Packages update).

(** [built u updates recs]: every advisory of [updates] has a date that
    parses, and [recs] are their records, advisory after advisory. *)
Inductive built (u : aws.Updater)
  : list alas.Update -> list aws.Vulnerability -> Prop :=
| built_nil : built u [] []
| built_cons update issued rest recs :
    issued_at update issued ->
    built u rest recs ->
    built u (update :: rest) (records_for u update issued ++ recs).

(** The advisory-level fields of the record [v] are those of [update],
    issued at [issued], as the Updater [u] reports them. *)
Definition advisory_fields (u : aws.Updater) (update : alas.Update)
    (issued : aws.Time) (v : aws.Vulnerability) : Prop :=
  claircore.Updater v = aws.Name u /\
  claircore.Name v = alas.ID update /\
  claircore.Description v = alas.Description update /\
  claircore.Issued v = issued /\
  claircore.Severity v = alas.Severity update /\
  claircore.NormalizedSeverity v = aws.NormalizeSeverity (alas.Severity update) /\
  claircore.Dist v = aws.releaseToDist (aws.release u) /\
  claircore.Links v =
    String.concat " " (map alas.Href (alas.References update)).

(** The package-level fields of the record [v] are those of [pkg]. *)
Definition package_fields (pkg : alas.Package) (v : aws.Vulnerability) : Prop :=
  claircore.Package_ v =
    Some {| claircore.Package_Name := alas.Name pkg;
            claircore.Package_Kind := "binary" |} /\
  claircore.FixedInVersion v = (alas.Version pkg ++ "-" ++ alas.Release pkg)%string.

(** The number of affected packages of the advisories [updates]. *)
Definition package_count (updates : list alas.Update) : nat :=
  list_sum (map (fun update => List.length (alas.Packages update)) updates).

(** The mirror entries [ms], in order, parse as the URLs [urls]. *)
Definition mirrors_parse (ms : list string) (urls : list aws.URL) : Prop :=
  Forall2 (fun m mu => aws.url_Parse m = inl mu) ms urls.

(** The affected-package kind of a record is [kind]. *)
Definition has_kind (kind : string) (v : aws.Vulnerability) : Prop :=
  exists p, claircore.Package_ v = Some p /\ claircore.Package_Kind p = kind.

End Vocabulary.

(* ------------------------------------------------------------------ *)
(** ** A concrete instance, to run the model on *)

Module sample.

(** Stand-ins for the externals: a release is its name; a stream is the
    document it carries, or [None] when it is not XML; a date parses when it
    is as long as the layout; a URL fails to parse when it starts with a
    colon; repository metadata is its updateinfo entry, if it has one. *)
#[local] Instance externals : aws.Externals := {|
  aws.Release := string;
  aws.Release_fmt := fun r => r;
  aws.ReadCloser := option alas.Updates;
  aws.http_Client := nat;
  aws.URL := string;
  aws.Time := string;
  aws.Distribution := string;
  aws.SeverityT := string;
  aws.RepoMD := option alas.Repo;
  aws.RepoType := string;
  aws.UpdateInfo := "updateinfo";
  aws.releaseToDist := fun r => ("Amazon Linux " ++ r)%string;
  aws.NormalizeSeverity := fun s => s;
  aws.time_Parse := fun layout value =>
    if Nat.eqb (String.length value) (String.length layout)
    then inl value else inr (errorString "parsing time: cannot parse");
  aws.url_Parse := fun rawurl =>
    if String.prefix ":" rawurl
    then inr (errorString "parse: missing protocol scheme") else inl rawurl;
  aws.xml_Decode := fun contents =>
    match contents with
    | Some updates => inl updates
    | None => inr (errorString "EOF")
    end;
  aws.RepoMD_Repo := fun md _ _ =>
    match md with
    | Some repo => inl repo
    | None => inr (errorString "updateinfo repo type not found")
    end
|}.

Definition pkg (name version rel : string) : alas.Package :=
  {| alas.Name := name; alas.Version := version; alas.Release := rel |}.

Definition advisory (id date : string) (pkgs : list alas.Package)
  : alas.Update :=
  {| alas.ID := id;
     alas.Description := "Package updates are available";
     alas.Issued := {| alas.Date := date |};
     alas.Severity := "important";
     alas.References :=
       [ {| alas.Href := "http://cve.example/1" |};
         {| alas.Href := "http://cve.example/2" |} ];
     alas.Packages := pkgs |}.

Definition first : alas.Update :=
  advisory "ALAS-2018-939" "2018-01-18 00:26"
    [pkg "kernel" "4.9.77" "31.58.amzn1"; pkg "perf" "4.9.77" "31.58.amzn1"].

Definition malformed : alas.Update :=
  advisory "ALAS-2018-940" "18 Jan 2018" [pkg "curl" "7.53.1" "14.81.amzn1"].

Definition third : alas.Update :=
  advisory "ALAS-2018-941" "2018-01-19 10:00" [pkg "bind" "9.8.2" "0.62.amzn1"].

Definition document (updates : list alas.Update) : option alas.Updates :=
  Some {| alas.Updates_ := updates |}.

(** The client [NewClient] makes in the runs below. *)
Definition made : aws.Client :=
  {| aws.c := None; aws.mirrors := ["http://mirror.example/"] |}.

(** The content of the updates resource in the runs below. *)
Definition body : option alas.Updates := document [first; third].

(** An upstream whose updates resource has the checksum [sum] and the
    content [body]; every call succeeds and leaves the client as it is.  The
    mirror directory lists one mirror. *)
Definition upstream (sum : string) (body : option alas.Updates)
  : aws.Upstream :=
  {| aws.NewClient := fun _ _ => inl made;
     aws.Client_RepoMD := fun cl _ =>
       (cl, inl (Some {| alas.Checksum := {| alas.Sum := sum |} |}));
     aws.Client_Updates := fun cl _ => (cl, inl (Some body));
     aws.Client_getMirrors := fun cl _ _ =>
       ({| aws.c := aws.c cl; aws.mirrors := ["http://mirror.example/"] |},
        None) |}.

(** An upstream that cannot be reached. *)
Definition unreachable : aws.Upstream :=
  {| aws.NewClient := fun _ _ => inr (errorString "dial tcp: timeout");
     aws.Client_RepoMD := fun cl _ => (cl, inr (errorString "dial tcp: timeout"));
     aws.Client_Updates := fun cl _ => (cl, inr (errorString "dial tcp: timeout"));
     aws.Client_getMirrors := fun cl _ _ =>
       (cl, Some (errorString "dial tcp: timeout")) |}.

Definition linux2 : aws.Updater :=
  {| aws.release := "linux2"; aws.Timeout := aws.defaultOpTimeout;
     aws.Mirrors := []; aws.client := None |}.

(** A [ConfigUnmarshaler] that decodes a timeout of 30 seconds and the
    mirror list [ms] into the exported fields. *)
Definition decode (ms : list string) : driver.ConfigUnmarshaler aws.Updater :=
  fun u =>
    ({| aws.release := aws.release u; aws.Timeout := (30 * Second)%Z;
        aws.Mirrors := ms; aws.client := aws.client u |},
     None).

(** The Updater [linux2] as [decode ms] leaves it. *)
Definition decoded (ms : list string) : aws.Updater :=
  {| aws.release := "linux2"; aws.Timeout := (30 * Second)%Z;
     aws.Mirrors := ms; aws.client := None |}.

Definition decode_fails : driver.ConfigUnmarshaler aws.Updater :=
  fun u => (u, Some (errorString "yaml: unmarshal errors")).


End sample.

(* ------------------------------------------------------------------ *)
(** ** pkg/distlock/locker.go *)

Module distlock.

(** Modelled from the spec: a LockHandle, one value implementing [Locker],
    identified by a number. *)
Definition handle : Type := nat.

(** Modelled from the spec: locker.go declares the interface [Locker] only,
    and no implementation of it is in src/.  The synchronization point is
    modelled after section 4.2 of the spec as the list of outstanding
    grants, each with the handle that holds it and the key it is for.  Every
    operation is one atomic step on that list, as the spec requires of
    acquisition; concurrent callers are the interleavings of their steps. *)
Definition table : Type := list (handle * string).

(** Some handle holds a grant for [key]. *)
Definition key_held (t : table) (key : string) : bool :=
  existsb (fun g => String.eqb (snd g) key) t.

(** The handle [h] has an outstanding grant. *)
Definition has_grant (t : table) (h : handle) : bool :=
  existsb (fun g => Nat.eqb (fst g) h) t.

(** The handle [h] holds the grant for [key]. *)
Definition holds (t : table) (h : handle) (key : string) : bool :=
  existsb (fun g => Nat.eqb (fst g) h && String.eqb (snd g) key) t.

(** Modelled from the spec: the acquisition both [Lock] and [TryLock] attempt.
    It is granted when nobody holds the key, the caller included (the lock is
    not reentrant), and when the handle has no outstanding grant (a handle
    has a single outstanding grant). *)
Definition acquire (t : table) (h : handle) (key : string) : option table :=
  if key_held t key || has_grant t h then None else Some ((h, key) :: t).

(** Modelled from the spec: [TryLock] never blocks; it returns [true] when
    the lock was acquired and [false], not an error, on contention.
    Failures of the coordination backend are left out of the model. *)
Definition TryLock (t : table) (h : handle) (key : string)
  : bool * option error * table :=
  match acquire t h key with
  | Some t' => (true, None, t')
  | None => (false, None, t)
  end.

(** Modelled from the spec: [Lock] blocks until the lock is obtained.
    [None]: the call cannot return with the lock in this table; it stays
    blocked, or gives up when its context ends, and the table is as before. *)
Definition Lock (t : table) (h : handle) (key : string)
  : option (option error * table) :=
  match acquire t h key with
  | Some t' => Some (None, t')
  | None => None
  end.

(** Modelled from the spec: [Unlock] releases the single outstanding grant
    held by the handle; without one it is modelled as doing nothing. *)
Definition Unlock (t : table) (h : handle) : option error * table :=
  (None, filter (fun g => negb (Nat.eqb (fst g) h)) t).

(** Modelled from the spec: calls on the lock, by any number of handles, in
    the order in which their atomic steps take place. *)
Inductive op : Type :=
| DoLock (h : handle) (key : string)
| DoTryLock (h : handle) (key : string)
| DoUnlock (h : handle).

(** The table after one call; a [Lock] that is blocked leaves it as it is. *)
Definition step (t : table) (o : op) : table :=
  match o with
  | DoLock h key =>
      match Lock t h key with
      | Some (_, t') => t'
      | None => t
      end
  | DoTryLock h key => snd (TryLock t h key)
  | DoUnlock h => snd (Unlock t h)
  end.

(** The table after the calls [ops], starting with no grant. *)
Definition run (ops : list op) : table := fold_left step ops [].

(** No key has two grants and no handle has two. *)
Definition exclusive (t : table) : Prop :=
  NoDup (map snd t) /\ NoDup (map fst t).

End distlock.

(* ------------------------------------------------------------------ *)
(** ** InsertScannerList, the database helper that follows the interface
       in locker.go *)

Module postgres.

(** What [InsertScannerList] uses and src/ does not contain: the connection
    pool of pgx and [claircore.Digest].  [Exec pool ctx sql hash i] answers
    [pool.Exec(ctx, sql, hash, i)] on a database in the state [pool]: the
    state it leaves and its error. *)
Class Database : Type := {
  Pool : Type;
  Digest : Type;
  Exec : Pool -> Context -> string -> Digest -> Z -> Pool * option error
}.

Section InsertScannerList.

Context {D : Database}.

(** One executed statement, with its two arguments. *)
Record Statement := {
  sql : string;
  manifest_hash : Digest;
  scanner_id : Z
}.

Definition insert_scannerlist : string :=
  "INSERT INTO scannerlist (manifest_hash, scanner_id) VALUES ($1, $2)".

(** The loop [for i := 0; i < n; i++] from the value [i] on: the statements
    executed, the database afterwards and the error returned.  [fuel] bounds
    the number of iterations; [None] when it runs out.  [i] stays below [n],
    so [i++] does not wrap. *)
Fixpoint InsertScannerList_loop (fuel : nat) (ctx : Context) (pool : Pool)
    (hash : Digest) (n i : Z)
  : option (list Statement * Pool * option error) :=
  if (i <? n)%Z then
    match fuel with
    | O => None
    | S fuel =>
        let st := {| sql := insert_scannerlist; manifest_hash := hash;
                     scanner_id := i |} in
        let (pool, err) := Exec pool ctx insert_scannerlist hash i in
        match err with
        | Some err => Some ([st], pool, Some err)
        | None =>
            match InsertScannerList_loop fuel ctx pool hash n (i + 1) with
            | Some (done, pool, err) => Some (st :: done, pool, err)
            | None => None
            end
        end
    end
  else Some ([], pool, None).

Definition InsertScannerList (ctx : Context) (pool : Pool) (hash : Digest)
    (n : Z) : option (list Statement * Pool * option error) :=
  InsertScannerList_loop (Z.to_nat n) ctx pool hash n 0.

(** The statement that inserts the scanner [i] for the manifest [hash]. *)
Definition insertion (hash : Digest) (i : nat) : Statement :=
  {| sql := insert_scannerlist; manifest_hash := hash;
     scanner_id := Z.of_nat i |}.

End InsertScannerList.

End postgres.

(* ------------------------------------------------------------------ *)
(** ** More vocabulary *)

Section MoreVocabulary.

Context {E : aws.Externals}.

(** The calls [Fetch] makes once it has the client [cl]: the metadata, and
    the download when the metadata has an entry for the updates. *)
Definition calls_through (W : aws.Upstream) (cl : aws.Client) (tctx : Context)
  : list aws.Call :=
  aws.CallRepoMD tctx ::
  match upstream_checksum W cl tctx with
  | Some _ => [aws.CallUpdates tctx]
  | None => []
  end.

(** What the download answers after the metadata was read through [cl]. *)
Definition download (W : aws.Upstream) (cl : aws.Client) (tctx : Context)
  : option aws.ReadCloser + error :=
  snd (aws.Client_Updates W (fst (aws.Client_RepoMD W cl tctx)) tctx).

(** Two records agree on the advisory fields that [Parse] fills in. *)
Definition same_advisory_fields (v w : aws.Vulnerability) : Prop :=
  claircore.Updater v = claircore.Updater w /\
  claircore.Name v = claircore.Name w /\
  claircore.Description v = claircore.Description w /\
  claircore.Issued v = claircore.Issued w /\
  claircore.Links v = claircore.Links w /\
  claircore.Severity v = claircore.Severity w /\
  claircore.NormalizedSeverity v = claircore.NormalizedSeverity w /\
  claircore.Dist v = claircore.Dist w.

(** The record [unpack] builds for one package from [partial]. *)
Definition unpacked (partial : aws.Vulnerability) (pkg : alas.Package)
  : aws.Vulnerability :=
  {| claircore.Updater := claircore.Updater partial;
     claircore.Name := claircore.Name partial;
     claircore.Description := claircore.Description partial;
     claircore.Issued := claircore.Issued partial;
     claircore.Links := claircore.Links partial;
     claircore.Severity := claircore.Severity partial;
     claircore.NormalizedSeverity := claircore.NormalizedSeverity partial;
     claircore.Dist := claircore.Dist partial;
     claircore.Package_ :=
       Some {| claircore.Package_Name := alas.Name pkg;
               claircore.Package_Kind := "binary" |};
     claircore.FixedInVersion :=
       (alas.Version pkg ++ "-" ++ alas.Release pkg)%string |}.

(** Two Updaters have the same release, timeout and mirror list. *)
Definition same_settings (u1 u2 : aws.Updater) : Prop :=
  aws.release u1 = aws.release u2 /\
  aws.Timeout u1 = aws.Timeout u2 /\
  aws.Mirrors u1 = aws.Mirrors u2.

End MoreVocabulary.

Section DatabaseVocabulary.

Context {D : postgres.Database}.

(** The database after the insertions for the [k] scanner ids from [a] on
    have been executed on [pool], one after the other. *)
Definition executed (ctx : Context) (hash : postgres.Digest)
    (pool : postgres.Pool) (a k : nat) : postgres.Pool :=
  fold_left
    (fun p i =>
       fst (postgres.Exec p ctx postgres.insert_scannerlist hash (Z.of_nat i)))
    (seq a k) pool.

(** The error of the insertion for the scanner id [a + j], executed after
    the [j] insertions from [a] on. *)
Definition outcome (ctx : Context) (hash : postgres.Digest)
    (pool : postgres.Pool) (a j : nat) : option error :=
  snd (postgres.Exec (executed ctx hash pool a j) ctx
         postgres.insert_scannerlist hash (Z.of_nat (a + j))).

End DatabaseVocabulary.

Module sample_db.

(** A database to run [InsertScannerList] on: the table holds the scanner
    ids inserted so far, and an insertion fails when the table has
    [capacity] rows. *)
Definition capacity : nat := 3.

#[local] Instance database : postgres.Database := {|
  postgres.Pool := list Z;
  postgres.Digest := string;
  postgres.Exec := fun pool _ _ _ i =>
    if Nat.ltb (List.length pool) capacity
    then (pool ++ [i], None)
    else (pool, Some (errorString "ERROR: out of space"))
|}.

End sample_db.

(* ================================================================== *)
(** * Properties *)

Section UpdaterProperties.

Context {E : aws.Externals}.

Implicit Types (W : aws.Upstream) (u : aws.Updater) (ctx : Context).

(** ** Frame: what the methods leave alone *)

(** Case analysis along the control flow of [Fetch]. *)
Ltac fetch_cases W u ctx :=
  unfold aws.Fetch;
  destruct (aws.client u) as [cl0|] eqn:Hclient;
  [ | destruct (aws.NewClient W ctx (aws.release u)) as [cl0|e0] eqn:Hnew ];
  cbn [aws.bind aws.ret aws.call aws.value aws.log fst snd app];
  try (destruct (aws.Client_RepoMD W cl0 (WithTimeout ctx (aws.Timeout u)))
         as [cl1 [md|e1]] eqn:Hmd;
       cbn [aws.bind aws.ret aws.call aws.value aws.log fst snd app];
       [ destruct (aws.RepoMD_Repo md aws.UpdateInfo "") as [repo|e2] eqn:Hrepo;
         cbn [aws.bind aws.ret aws.call aws.value aws.log fst snd app];
         [ destruct (aws.Client_Updates W cl1 (WithTimeout ctx (aws.Timeout u)))
             as [cl2 [rc|e3]] eqn:Hupd;
           cbn [aws.bind aws.ret aws.call aws.value aws.log fst snd app]
         | ]
       | ]).





(** ** Fetch *)

(** [Fetch] does not read its [fingerprint] argument. *)
Lemma Fetch_ignores_fingerprint W u ctx (prior prior' : driver.Fingerprint) :
  aws.Fetch W u ctx prior = aws.Fetch W u ctx prior'.
Proof. reflexivity. Qed.

(** Whatever the upstream and the prior Fingerprint, the error of [Fetch] is
    not [driver.Unchanged]. *)
Lemma Fetch_never_Unchanged W u ctx (prior : driver.Fingerprint) :
  error_of (snd (aws.value (aws.Fetch W u ctx prior))) <> Some driver.Unchanged.
Proof.
  fetch_cases W u ctx; unfold error_of, driver.Unchanged, Errorf_v; simpl;
    discriminate.
Qed.

(** C2: when the checksum of the upstream updates resource differs from the
    prior Fingerprint, [Fetch] does not return [Unchanged].  A [Fetch] whose
    calls all succeed returns the downloaded content with exactly that
    checksum as the new Fingerprint and a nil error; the Fingerprint of any
    [Fetch] that returns a nil error is that checksum, and so differs from
    the prior one. *)
Theorem Fetch_changed_returns_checksum W u ctx (prior : driver.Fingerprint)
    (cl : aws.Client) (sum : string) :
  client_used W u ctx = Some cl ->
  upstream_checksum W cl (WithTimeout ctx (aws.Timeout u)) = Some sum ->
  sum <> prior ->
  let r := snd (aws.value (aws.Fetch W u ctx prior)) in
  error_of r <> Some driver.Unchanged /\
  (error_of r = None -> fingerprint_of r = sum /\ fingerprint_of r <> prior) /\
  (forall content,
     download W cl (WithTimeout ctx (aws.Timeout u)) = inl content ->
     r = (content, sum, None) /\ fingerprint_of r <> prior).
Proof.
  intros Hcl Hsum Hdiff r. split; [ apply Fetch_never_Unchanged | ].
  subst r. revert Hcl Hsum.
  unfold client_used, upstream_checksum, download.
  fetch_cases W u ctx; unfold error_of, fingerprint_of; simpl;
    intros Hcl Hsum; try discriminate Hcl;
    injection Hcl as <-; rewrite Hmd in *; simpl in Hsum;
    try discriminate Hsum; rewrite Hrepo in Hsum; try discriminate Hsum;
    injection Hsum as <-;
    (split; [ intro Herr; try discriminate Herr; auto | ]);
    intros content Hdl; simpl in Hdl; rewrite Hupd in Hdl; simpl in Hdl;
    try discriminate Hdl; injection Hdl as <-; auto.
Qed.

(** C9: whenever [Fetch] returns a non-nil error, the content stream is nil
    and the Fingerprint is empty; the error is one of the four that [Fetch]
    formats. *)
Theorem Fetch_error_returns_nothing W u ctx (prior : driver.Fingerprint) :
  let r := snd (aws.value (aws.Fetch W u ctx prior)) in
  error_of r <> None ->
  stream_of r = None /\ fingerprint_of r = "" /\
  exists prefix err,
    In prefix [ "failed to create client: ";
                "failed to retrieve repo metadata: ";
                "updates repo metadata could not be retrieved: ";
                "failed to retrieve update info: " ] /\
    error_of r = Some (Errorf_v prefix err).
Proof.
  fetch_cases W u ctx; unfold error_of, stream_of, fingerprint_of;
    cbn [fst snd]; intro Herr; try (exfalso; apply Herr; reflexivity);
    (split; [ reflexivity | split; [ reflexivity | ] ]);
    eexists; eexists; (split; [ | reflexivity ]); simpl; auto.
Qed.

(** C10: [NewUpdater] never fails.  It returns a non-nil Updater for the
    release and a nil error; the Updater has the default timeout of 15
    seconds, no mirrors and no client, so that [Fetch] on it starts by
    creating a client of its own and leaves the Updater without one. *)
Theorem NewUpdater_defaults (r : aws.Release) :
  exists u,
    aws.NewUpdater r = (Some u, None) /\
    aws.release u = r /\
    aws.Timeout u = 15000000000%Z /\
    aws.Mirrors u = [] /\
    aws.client u = None /\
    forall W ctx (prior : driver.Fingerprint),
      (exists rest,
         aws.log (aws.Fetch W u ctx prior) = aws.CallNewClient ctx r :: rest) /\
      fst (aws.value (aws.Fetch W u ctx prior)) = u.
Proof.
  eexists; split; [ reflexivity | ].
  repeat (split; [ reflexivity | ]).
  intros W ctx prior.
  match goal with |- context [aws.Fetch W ?v ctx prior] => set (u := v) end.
  fetch_cases W u ctx; try discriminate Hclient;
    (split; [ eexists; reflexivity | ]);
    try reflexivity; unfold aws.keep_client; rewrite Hclient; reflexivity.
Qed.

(** ** Name *)


(** ** Parse *)

(** A loop that appends one element per item builds the image of the items. *)
Lemma fold_left_snoc_map (A B : Type) (f : A -> B) (l : list A) :
  forall acc, fold_left (fun out x => out ++ [f x]) l acc = acc ++ map f l.
Proof.
  induction l as [|x l IH]; intro acc; simpl.
  - symmetry; apply app_nil_r.
  - rewrite IH, <- app_assoc. reflexivity.
Qed.

Lemma refsToLinks_join (update : alas.Update) :
  aws.refsToLinks update =
  String.concat " " (map alas.Href (alas.References update)).
Proof.
  unfold aws.refsToLinks. rewrite fold_left_snoc_map. reflexivity.
Qed.

(** [unpack] on the partial record of [Parse] builds the records the spec
    describes. *)
Lemma unpack_records u (update : alas.Update) (issued : aws.Time) :
  aws.unpack u
    (aws.partial_of u (aws.releaseToDist (aws.release u)) update issued)
    (alas.Packages update)
  = records_for u update issued.
Proof.
  unfold aws.unpack, records_for. rewrite fold_left_snoc_map. simpl.
  apply map_ext. intro pkg. unfold record_for. simpl.
  rewrite refsToLinks_join. reflexivity.
Qed.

Lemma unpack_kind u (partial : aws.Vulnerability) (pkgs : list alas.Package) :
  Forall (has_kind "binary") (aws.unpack u partial pkgs).
Proof.
  unfold aws.unpack. rewrite fold_left_snoc_map. simpl.
  apply Forall_map, Forall_forall. intros pkg _.
  eexists; split; reflexivity.
Qed.

Lemma records_for_fields u (update : alas.Update) (issued : aws.Time) :
  Forall2 (fun pkg v => advisory_fields u update issued v /\ package_fields pkg v)
    (alas.Packages update) (records_for u update issued).
Proof.
  unfold records_for.
  induction (alas.Packages update) as [|pkg pkgs IH]; simpl; constructor; auto.
  split; [ unfold advisory_fields | unfold package_fields ]; simpl;
    repeat split; reflexivity.
Qed.

(** Advisories whose dates all parse have records. *)
Lemma built_exists u (updates : list alas.Update) :
  Forall date_parses updates -> exists recs, built u updates recs.
Proof.
  induction 1 as [|update rest [issued Hissued] _ [recs IH]].
  - exists []; constructor.
  - eexists; econstructor; eassumption.
Qed.

Lemma built_length u (updates : list alas.Update) recs :
  built u updates recs -> List.length recs = package_count updates.
Proof.
  induction 1 as [|update issued rest recs _ _ IH]; [ reflexivity | ].
  unfold package_count in *; simpl.
  rewrite length_app, IH. unfold records_for. rewrite length_map. reflexivity.
Qed.

(** The loop on advisories that all have records, followed by [rest]. *)
Lemma Parse_loop_built u (pre : list alas.Update) recs :
  built u pre recs ->
  forall rest vulns,
    aws.Parse_loop u (aws.releaseToDist (aws.release u)) (pre ++ rest) vulns =
    aws.Parse_loop u (aws.releaseToDist (aws.release u)) rest (vulns ++ recs).
Proof.
  induction 1 as [|update issued pre recs Hissued _ IH]; intros rest vulns.
  - rewrite app_nil_r. reflexivity.
  - simpl. unfold issued_at in Hissued. rewrite Hissued.
    rewrite IH, unpack_records, app_assoc. reflexivity.
Qed.

Lemma Parse_loop_built_all u (updates : list alas.Update) recs vulns :
  built u updates recs ->
  aws.Parse_loop u (aws.releaseToDist (aws.release u)) updates vulns =
  (vulns ++ recs, None).
Proof.
  intro Hbuilt. rewrite <- (app_nil_r updates).
  rewrite (Parse_loop_built Hbuilt). reflexivity.
Qed.

Lemma Parse_loop_kind u dist (updates : list alas.Update) :
  forall vulns,
    Forall (has_kind "binary") vulns ->
    Forall (has_kind "binary") (fst (aws.Parse_loop u dist updates vulns)).
Proof.
  induction updates as [|update rest IH]; intros vulns Hvulns; simpl; auto.
  destruct (aws.time_Parse _ _) as [issued|err]; simpl; auto.
  apply IH, Forall_app. split; [ assumption | apply unpack_kind ].
Qed.

(** C3: in a document that decodes and whose issue dates all parse, [Parse]
    returns, for an advisory with N affected packages, exactly N records,
    placed after the records of the advisories before it and before those of
    the advisories after it; each carries the advisory-level fields of the
    advisory (so all N share them) and the name, the kind and the fixed-in
    version "<version>-<release>" of its own package. *)
Theorem Parse_complete u (contents : aws.ReadCloser) (doc : alas.Updates)
    (pre post : list alas.Update) (update : alas.Update) :
  aws.xml_Decode contents = inl doc ->
  alas.Updates_ doc = pre ++ update :: post ->
  Forall date_parses (alas.Updates_ doc) ->
  exists issued before rest,
    issued_at update issued /\
    built u pre before /\ built u post rest /\
    aws.Parse u contents = (before ++ records_for u update issued ++ rest, None) /\
    List.length (records_for u update issued) = List.length (alas.Packages update) /\
    Forall2
      (fun pkg v => advisory_fields u update issued v /\ package_fields pkg v)
      (alas.Packages update) (records_for u update issued).
Proof.
  intros Hdecode Hdoc Hdates. rewrite Hdoc in Hdates.
  apply Forall_app in Hdates as [Hpre Hrest].
  inversion Hrest as [|? ? [issued Hissued] Hpost]; subst.
  destruct (built_exists u Hpre) as [before Hbefore].
  destruct (built_exists u Hpost) as [rest Hafter].
  exists issued, before, rest.
  repeat (split; [ assumption | ]).
  split; [ | split ].
  - unfold aws.Parse. rewrite Hdecode, Hdoc.
    rewrite (Parse_loop_built Hbefore).
    assert (Hone : built u [update] (records_for u update issued ++ []))
      by (econstructor; [ eassumption | constructor ]).
    change (update :: post) with ([update] ++ post).
    rewrite (Parse_loop_built Hone), (Parse_loop_built_all _ Hafter).
    simpl. rewrite !app_nil_r, <- app_assoc. reflexivity.
  - unfold records_for. apply length_map.
  - apply records_for_fields.
Qed.

(** The first advisory with a date that does not parse, and the advisories
    around it. *)
Lemma first_bad_date (updates : list alas.Update) :
  Exists date_fails updates ->
  exists pre bad post err,
    updates = pre ++ bad :: post /\ Forall date_parses pre /\
    date_error bad err.
Proof.
  induction updates as [|update rest IH]; intro Hbad;
    [ inversion Hbad | ].
  destruct (aws.time_Parse "2006-01-02 15:04" (alas.Date (alas.Issued update)))
    as [issued|err] eqn:Hdate.
  - assert (Hrest : Exists date_fails rest).
    { inversion Hbad as [? ? [err Herr]|]; subst; [ | assumption ].
      unfold date_error in Herr. congruence. }
    destruct (IH Hrest) as (pre & bad & post & err & -> & Hpre & Herr).
    exists (update :: pre), bad, post, err.
    split; [ reflexivity | split; [ | assumption ] ].
    constructor; [ exists issued; assumption | assumption ].
  - exists [], update, rest, err.
    split; [ reflexivity | split; [ constructor | assumption ] ].
Qed.

(** [Parse] returns at an advisory whose date does not parse, with the
    records of the advisories before it. *)
Lemma Parse_returns_at u (contents : aws.ReadCloser) (doc : alas.Updates)
    (pre post : list alas.Update) (bad : alas.Update) (err : error) recs :
  aws.xml_Decode contents = inl doc ->
  alas.Updates_ doc = pre ++ bad :: post ->
  built u pre recs ->
  date_error bad err ->
  aws.Parse u contents = (recs, Some err).
Proof.
  intros Hdecode Hdoc Hrecs Hbad. unfold date_error in Hbad.
  unfold aws.Parse. rewrite Hdecode, Hdoc.
  rewrite (Parse_loop_built Hrecs). simpl. rewrite Hbad. reflexivity.
Qed.

(** C4: in a document that decodes and in which some advisory has an issue
    date that does not parse, [Parse] stops at the first such advisory: it
    returns the records of all the advisories before it, and nothing else,
    with the non-nil error of the date.  When the second of three advisories
    is the malformed one, the result is the records of the packages of the
    first advisory, with the error. *)
Theorem Parse_stops_at_bad_date u (contents : aws.ReadCloser)
    (doc : alas.Updates) :
  aws.xml_Decode contents = inl doc ->
  (Exists date_fails (alas.Updates_ doc) ->
   exists pre bad post err recs,
     alas.Updates_ doc = pre ++ bad :: post /\
     Forall date_parses pre /\ date_error bad err /\
     built u pre recs /\
     List.length recs = package_count pre /\
     aws.Parse u contents = (recs, Some err)) /\
  (forall one two three issued err,
     alas.Updates_ doc = [one; two; three] ->
     issued_at one issued -> date_error two err ->
     aws.Parse u contents = (records_for u one issued, Some err)).
Proof.
  intro Hdecode. split.
  - intro Hbad.
    destruct (first_bad_date Hbad) as (pre & bad & post & err & Hdoc & Hpre & Herr).
    destruct (built_exists u Hpre) as [recs Hrecs].
    exists pre, bad, post, err, recs.
    repeat (split; [ assumption | ]).
    split; [ eapply built_length; eassumption | ].
    eapply Parse_returns_at; eassumption.
  - intros one two three issued err Hdoc Hone Htwo.
    apply (Parse_returns_at (u := u) contents [three] (pre := [one])
             (bad := two) Hdecode Hdoc); [ | assumption ].
    rewrite <- (app_nil_r (records_for u one issued)).
    econstructor; [ eassumption | constructor ].
Qed.

(** C8: every record [Parse] returns, whatever the document and whether or
    not parsing fails, has the affected-package kind "binary". *)
Theorem Parse_kind_binary u (contents : aws.ReadCloser) :
  Forall (has_kind "binary") (fst (aws.Parse u contents)).
Proof.
  unfold aws.Parse.
  destruct (aws.xml_Decode contents) as [updates|err]; simpl.
  - apply Parse_loop_kind. constructor.
  - constructor.
Qed.

(** ** Configure *)

Lemma Configure_loop_parsed (ms : list string) (urls : list aws.URL) :
  mirrors_parse ms urls ->
  forall acc, aws.Configure_loop ms acc = (acc ++ urls, None).
Proof.
  induction 1 as [|m mu ms urls Hm _ IH]; intro acc; simpl.
  - rewrite app_nil_r. reflexivity.
  - rewrite Hm, IH, <- app_assoc. reflexivity.
Qed.

Lemma Configure_loop_fails (ms : list string) (m : string) (e : error) :
  In m ms -> aws.url_Parse m = inr e ->
  forall acc, exists parsed err, aws.Configure_loop ms acc = (parsed, Some err).
Proof.
  induction ms as [|m' ms IH]; intros Hin Hm acc; [ destruct Hin | ].
  simpl. destruct (aws.url_Parse m') as [mu|e'] eqn:Hm'.
  - destruct Hin as [->|Hin]; [ congruence | ]. apply IH; assumption.
  - eexists; eexists; reflexivity.
Qed.

(** When the loop ends without an error, every entry has added a mirror. *)
Lemma Configure_loop_length (ms : list string) :
  forall acc parsed,
    aws.Configure_loop ms acc = (parsed, None) ->
    List.length parsed = List.length acc + List.length ms.
Proof.
  induction ms as [|m ms IH]; intros acc parsed Hloop; simpl in Hloop.
  - injection Hloop as <-. simpl. lia.
  - destruct (aws.url_Parse m) as [mu|e]; [ | discriminate ].
    apply IH in Hloop. rewrite length_app in Hloop. simpl in *. lia.
Qed.

(** C6: [Configure] applies the ConfigUnmarshaler first, to the Updater
    itself; [decoded] is the Updater as it leaves it.  When that fails
    [Configure] returns its error, having bound no client and made no call.  Otherwise it
    binds a client with the supplied HTTP client.  A non-empty mirror list
    whose entries all parse becomes the mirrors of the client, and no mirror
    list is resolved upstream; an entry that does not parse gives a non-nil
    error, again without a call upstream; the mirror list is resolved
    upstream, under the decoded timeout, only when the decoded mirror list is
    empty, and then it is. *)
Theorem Configure_mirrors W u ctx (f : driver.ConfigUnmarshaler aws.Updater)
    (c : option aws.http_Client) (decoded : aws.Updater)
    (err : option error) :
  f u = (decoded, err) ->
  let r := aws.Configure W u ctx f c in
  let ms := aws.Mirrors decoded in
  let tctx := WithTimeout ctx (aws.Timeout decoded) in
  (forall e, err = Some e ->
     aws.value r = (decoded, Some e) /\ aws.log r = []) /\
  (err = None ->
     aws.client (fst (aws.value r)) <> None /\
     (forall urls, ms <> [] -> mirrors_parse ms urls ->
        aws.value r =
          (aws.set_client decoded (Some {| aws.c := c; aws.mirrors := urls |}),
           None) /\
        aws.log r = []) /\
     (forall m e, In m ms -> aws.url_Parse m = inr e ->
        snd (aws.value r) <> None /\ aws.log r = [] /\
        exists parsed,
          aws.client (fst (aws.value r)) =
          Some {| aws.c := c; aws.mirrors := parsed |}) /\
     (forall ev, In ev (aws.log r) ->
        ms = [] /\ ev = aws.CallGetMirrors tctx (aws.release decoded)) /\
     (ms = [] ->
        let answer :=
          aws.Client_getMirrors W {| aws.c := c; aws.mirrors := [] |} tctx
            (aws.release decoded) in
        aws.log r = [aws.CallGetMirrors tctx (aws.release decoded)] /\
        aws.value r =
          (aws.set_client decoded (Some (fst answer)),
           option_map (Errorf_w "failed to create client: ") (snd answer)))).
Proof.
  intros Hf r ms tctx. subst r. unfold aws.Configure. rewrite Hf.
  destruct decoded as [rel timeout ms' bound].
  cbn [aws.mirrors aws.Mirrors aws.Timeout aws.release aws.set_client] in *.
  subst ms. fold tctx. set (ms := ms').
  split.
  - intros e ->. split; reflexivity.
  - intros ->.
    destruct (aws.Configure_loop ms []) as [parsed [e|]] eqn:Hloop.
    + (* an entry did not parse *)
      cbn [aws.ret aws.value aws.log fst snd].
      split; [ discriminate | ].
      split; [ | split; [ | split ] ].
      * intros urls _ Hparse.
        rewrite (Configure_loop_parsed Hparse) in Hloop. discriminate.
      * intros m e' _ _. split; [ discriminate | ].
        split; [ reflexivity | ]. eexists; reflexivity.
      * intros ev [].
      * intros ->. discriminate Hloop.
    + (* every entry parsed *)
      pose proof (Configure_loop_length _ _ Hloop) as Hlen. simpl in Hlen.
      subst ms. destruct ms' as [|m0 ms'].
      * simpl in Hloop. injection Hloop as <-. simpl.
        destruct (aws.Client_getMirrors W _ tctx rel)
          as [cl [e|]] eqn:Hget;
          cbn [aws.bind aws.call aws.ret aws.value aws.log fst snd app];
          (split; [ discriminate | ]);
          (split; [ intros urls Hne; exfalso; apply Hne; reflexivity | ]);
          (split; [ intros m e' [] | ]);
          (split; [ intros ev [<-|[]]; split; reflexivity | ]);
          intros _; split; reflexivity.
      * destruct parsed as [|mu parsed']; [ simpl in Hlen; lia | ].
        cbn [List.length Nat.eqb aws.ret aws.value aws.log fst snd].
        split; [ discriminate | ].
        split; [ | split; [ | split ] ].
        -- intros urls _ Hparse.
           rewrite (Configure_loop_parsed Hparse) in Hloop.
           injection Hloop as <-. split; reflexivity.
        -- intros m e Hin Hm.
           destruct (Configure_loop_fails _ _ Hin Hm []) as (p & e' & Hfail).
           rewrite Hfail in Hloop. discriminate.
        -- intros ev [].
        -- discriminate.
Qed.

End UpdaterProperties.

Section LockerProperties.

Import distlock.

Implicit Types (t : table) (h : handle) (key : string).

Lemma key_held_In t key : key_held t key = true <-> In key (map snd t).
Proof.
  unfold key_held. rewrite existsb_exists, in_map_iff. split.
  - intros [g [Hin Heq]]. apply String.eqb_eq in Heq. exists g; auto.
  - intros [g [Heq Hin]]. exists g. split; [ assumption | ].
    apply String.eqb_eq; assumption.
Qed.

Lemma has_grant_In t h : has_grant t h = true <-> In h (map fst t).
Proof.
  unfold has_grant. rewrite existsb_exists, in_map_iff. split.
  - intros [g [Hin Heq]]. apply Nat.eqb_eq in Heq. exists g; auto.
  - intros [g [Heq Hin]]. exists g. split; [ assumption | ].
    apply Nat.eqb_eq; assumption.
Qed.

Lemma holds_In t h key : holds t h key = true <-> In (h, key) t.
Proof.
  unfold holds. rewrite existsb_exists. split.
  - intros [[h' key'] [Hin Heq]]. simpl in Heq.
    apply andb_true_iff in Heq as [Hh Hkey].
    apply Nat.eqb_eq in Hh. apply String.eqb_eq in Hkey. subst. assumption.
  - intro Hin. exists (h, key). split; [ assumption | ]. simpl.
    rewrite Nat.eqb_refl, String.eqb_refl. reflexivity.
Qed.

Lemma holds_key_held t h key : holds t h key = true -> key_held t key = true.
Proof.
  rewrite holds_In, key_held_In. intro Hin.
  apply (in_map snd) in Hin. assumption.
Qed.

(** A key with a single grant has a single holder. *)
Lemma single_holder t key h1 h2 :
  NoDup (map snd t) -> In (h1, key) t -> In (h2, key) t -> h1 = h2.
Proof.
  induction t as [|[h k] t IH]; simpl; intros Hnd H1 H2; [ destruct H1 | ].
  inversion Hnd as [|? ? Hnotin Hnd']; subst.
  destruct H1 as [H1|H1], H2 as [H2|H2].
  - congruence.
  - injection H1 as -> ->. exfalso. apply Hnotin.
    apply (in_map snd) in H2. assumption.
  - injection H2 as -> ->. exfalso. apply Hnotin.
    apply (in_map snd) in H1. assumption.
  - auto.
Qed.

(** Releasing the grants of a handle keeps the remaining grants apart,
    whichever component [proj] of a grant is looked at. *)
Lemma Unlock_NoDup (A : Type) (proj : handle * string -> A) t h :
  NoDup (map proj t) -> NoDup (map proj (snd (Unlock t h))).
Proof.
  unfold Unlock; simpl.
  induction t as [|g t IH]; intro Hnd; simpl; [ exact Hnd | ].
  apply NoDup_cons_iff in Hnd as [Hfresh Hnd]. specialize (IH Hnd).
  simpl in IH. destruct (negb _); [ | exact IH ].
  simpl. apply NoDup_cons_iff. split; [ | exact IH ].
  contradict Hfresh.
  apply in_map_iff in Hfresh as (g' & Hproj & Hin).
  apply filter_In in Hin as [Hin _].
  apply in_map_iff. exists g'. split; assumption.
Qed.

(** *** The invariant *)

Lemma exclusive_acquire t h key t' :
  exclusive t -> acquire t h key = Some t' -> exclusive t'.
Proof.
  unfold acquire, exclusive. intros [Hkeys Hhandles].
  destruct (key_held t key) eqn:Hk; [ discriminate | ].
  destruct (has_grant t h) eqn:Hh; [ discriminate | ].
  simpl. intro Heq; injection Heq as <-. simpl.
  split; constructor; try assumption.
  - rewrite <- key_held_In, Hk. discriminate.
  - rewrite <- has_grant_In, Hh. discriminate.
Qed.

Lemma exclusive_step t o : exclusive t -> exclusive (step t o).
Proof.
  intro Hex. destruct o as [h key|h key|h]; simpl.
  - unfold Lock. destruct (acquire t h key) eqn:Hacq; [ | assumption ].
    eapply exclusive_acquire; eassumption.
  - unfold TryLock. destruct (acquire t h key) eqn:Hacq; [ | assumption ].
    eapply exclusive_acquire; eassumption.
  - destruct Hex as [Hkeys Hhandles]. split; apply Unlock_NoDup; assumption.
Qed.

Lemma exclusive_run (ops : list op) : exclusive (run ops).
Proof.
  unfold run.
  assert (Hgen : forall t, exclusive t -> exclusive (fold_left step ops t)).
  { induction ops as [|o ops IH]; intros t Hex; simpl; [ assumption | ].
    apply IH, exclusive_step, Hex. }
  apply Hgen. split; constructor.
Qed.

(** A call that reports success holds the key afterwards. *)
Lemma acquire_holds t h key t' :
  acquire t h key = Some t' -> holds t' h key = true /\ key_held t key = false.
Proof.
  unfold acquire. destruct (key_held t key); [ discriminate | ].
  destruct (has_grant t h); [ discriminate | ].
  simpl. intro Heq; injection Heq as <-. split; [ | reflexivity ].
  apply holds_In. left; reflexivity.
Qed.

(** After [Unlock] a handle has no grant. *)
Lemma Unlock_no_grant t h : has_grant (snd (Unlock t h)) h = false.
Proof.
  destruct (has_grant (snd (Unlock t h)) h) eqn:Hgrant; [ | reflexivity ].
  apply has_grant_In, in_map_iff in Hgrant as (g & Hfst & Hin).
  unfold Unlock in Hin; simpl in Hin. apply filter_In in Hin as [_ Hne].
  subst h. rewrite Nat.eqb_refl in Hne. discriminate.
Qed.

(** Of two calls for one key that take their steps one after the other, with
    no [Unlock] in between, the second does not report success. *)
Lemma second_caller_refused t h1 h2 key t1 :
  acquire t h1 key = Some t1 ->
  TryLock t1 h2 key = (false, None, t1) /\ Lock t1 h2 key = None.
Proof.
  intro Hfirst. apply acquire_holds in Hfirst as [Hholds _].
  unfold TryLock, Lock, acquire.
  rewrite (holds_key_held _ _ _ Hholds). split; reflexivity.
Qed.

(** A grant stays through every call but an [Unlock] by its holder. *)
Lemma holds_step t o h key :
  o <> DoUnlock h -> holds t h key = true -> holds (step t o) h key = true.
Proof.
  intros Hother Hholds. apply holds_In in Hholds. apply holds_In.
  destruct o as [h' key'|h' key'|h']; simpl.
  - unfold Lock, acquire.
    destruct (key_held t key' || has_grant t h'); [ assumption | ].
    right; assumption.
  - unfold TryLock, acquire.
    destruct (key_held t key' || has_grant t h'); simpl; [ assumption | ].
    right; assumption.
  - apply filter_In. split; [ assumption | ]. simpl.
    destruct (Nat.eqb h h') eqn:Heq; [ | reflexivity ].
    apply Nat.eqb_eq in Heq. subst h'. exfalso. apply Hother. reflexivity.
Qed.

Lemma holds_later (later : list op) h key :
  Forall (fun o => o <> DoUnlock h) later ->
  forall t, holds t h key = true ->
            holds (fold_left step later t) h key = true.
Proof.
  induction 1 as [|o later Ho _ IH]; intros t Hholds; simpl; [ assumption | ].
  apply IH, holds_step; assumption.
Qed.

(** While a handle holds a key, nobody else does and nobody is granted it. *)
Lemma held_excludes (ops : list op) key h1 :
  holds (run ops) h1 key = true ->
  (forall h2, holds (run ops) h2 key = true -> h2 = h1) /\
  (forall h2, TryLock (run ops) h2 key = (false, None, run ops) /\
              Lock (run ops) h2 key = None).
Proof.
  intro Hholds. destruct (exclusive_run ops) as [Hkeys _]. split.
  - intros h2 H2. apply holds_In in Hholds, H2.
    eapply single_holder; eassumption.
  - intro h2. unfold TryLock, Lock, acquire.
    rewrite (holds_key_held _ _ _ Hholds). simpl. split; reflexivity.
Qed.

(** [Unlock] releases the grant of its handle and no other. *)
Lemma Unlock_others t h1 h2 key :
  h2 <> h1 -> holds (snd (Unlock t h1)) h2 key = holds t h2 key.
Proof.
  intro Hne.
  destruct (holds t h2 key) eqn:Hbefore.
  - apply holds_In. apply holds_In in Hbefore.
    unfold Unlock; simpl. apply filter_In. split; [ assumption | ]. simpl.
    destruct (Nat.eqb h2 h1) eqn:Heq; [ | reflexivity ].
    apply Nat.eqb_eq in Heq. contradiction.
  - destruct (holds (snd (Unlock t h1)) h2 key) eqn:Hafter; [ | reflexivity ].
    apply holds_In in Hafter. unfold Unlock in Hafter; simpl in Hafter.
    apply filter_In in Hafter as [Hin _]. apply holds_In in Hin. congruence.
Qed.

(** C5: at any point of any interleaving of calls, while a handle holds an
    unreleased grant for a key, no other handle holds one for that key, and
    no [TryLock] or [Lock] on that key, from any handle, reports success:
    [TryLock] returns false without an error and [Lock] does not return.
    The grant is unreleased until its holder calls [Unlock]: whatever calls
    follow, by whatever handles, the holder's [Unlock] apart, the holder
    still holds the key after them and every [TryLock] and [Lock] on it is
    still refused.  Once the holder has called [Unlock], which releases no
    grant of another handle, nobody holds the key, and a [TryLock] or [Lock]
    on it from a handle without a grant, the former holder for one,
    succeeds. *)
Theorem Locker_mutual_exclusion (ops : list op) (key : string) (h1 : handle) :
  holds (run ops) h1 key = true ->
  let t := run ops in
  let released := snd (Unlock t h1) in
  (forall h2, holds t h2 key = true -> h2 = h1) /\
  (forall h2, TryLock t h2 key = (false, None, t) /\ Lock t h2 key = None) /\
  (forall later,
     Forall (fun o => o <> DoUnlock h1) later ->
     let t' := run (ops ++ later) in
     holds t' h1 key = true /\
     (forall h2, holds t' h2 key = true -> h2 = h1) /\
     (forall h2, TryLock t' h2 key = (false, None, t') /\
                 Lock t' h2 key = None)) /\
  fst (Unlock t h1) = None /\
  key_held released key = false /\
  has_grant released h1 = false /\
  (forall h2 key2, h2 <> h1 -> holds released h2 key2 = holds t h2 key2) /\
  (forall h2, has_grant released h2 = false ->
     (exists t', TryLock released h2 key = (true, None, t') /\
                 holds t' h2 key = true) /\
     (exists t', Lock released h2 key = Some (None, t') /\
                 holds t' h2 key = true)).
Proof.
  intros Hholds t released.
  destruct (exclusive_run ops) as [Hkeys _]. fold t in Hkeys.
  destruct (held_excludes ops key h1 Hholds) as [Hsingle Hrefused].
  fold t in Hholds, Hsingle, Hrefused.
  split; [ exact Hsingle | ].
  split; [ exact Hrefused | ].
  split.
  { intros later Hlater t'.
    assert (Hstill : holds t' h1 key = true).
    { unfold t', run. rewrite fold_left_app.
      apply holds_later; assumption. }
    split; [ exact Hstill | ].
    exact (held_excludes (ops ++ later) key h1 Hstill). }
  split; [ reflexivity | ].
  assert (Hfree : key_held released key = false).
  { destruct (key_held released key) eqn:Hk; [ | reflexivity ].
    exfalso. apply key_held_In, in_map_iff in Hk as [[h k] [Heq Hin]].
    simpl in Heq; subst k. unfold released, Unlock in Hin. simpl in Hin.
    apply filter_In in Hin as [Hin Hne]. simpl in Hne.
    apply holds_In in Hholds.
    assert (h = h1) by (eapply single_holder; eassumption). subst h.
    rewrite Nat.eqb_refl in Hne. discriminate. }
  split; [ assumption | ].
  split; [ apply Unlock_no_grant | ].
  split; [ intros h2 key2 Hne; apply Unlock_others; assumption | ].
  intros h2 Hidle.
  assert (Hacq : acquire released h2 key = Some ((h2, key) :: released))
    by (unfold acquire; rewrite Hfree, Hidle; reflexivity).
  unfold TryLock, Lock. rewrite Hacq.
  split; eexists; (split; [ reflexivity | ]);
    apply holds_In; left; reflexivity.
Qed.

End LockerProperties.

(* ================================================================== *)
(** * The model at concrete inputs *)

Section Runs.

Import sample.

#[local] Existing Instance externals.

(** C1 (the code departs from the claim): with the prior Fingerprint "abc"
    and an upstream whose updates resource has the checksum "abc", [Fetch]
    does not return [driver.Unchanged].  It downloads the resource and
    returns it with the Fingerprint "abc" and a nil error, on a first call
    and again on a second. *)
Theorem Fetch_equal_checksum_still_fetches :
  let W := upstream "abc" body in
  let once := aws.Fetch W linux2 Background "abc" in
  let twice := aws.Fetch W (fst (aws.value once)) Background "abc" in
  let tctx := WithTimeout Background aws.defaultOpTimeout in
  snd (aws.value once) = (Some body, "abc", None) /\
  snd (aws.value twice) = (Some body, "abc", None) /\
  error_of (snd (aws.value once)) <> Some driver.Unchanged /\
  aws.log once =
    [aws.CallNewClient Background (aws.release linux2); aws.CallRepoMD tctx;
     aws.CallUpdates tctx].
Proof.
  cbv zeta. repeat split. discriminate.
Qed.

Lemma Fetch_changed_returns_checksum_witness :
  let W := upstream "def" body in
  let tctx := WithTimeout Background (aws.Timeout linux2) in
  let r := snd (aws.value (aws.Fetch W linux2 Background "abc")) in
  (client_used W linux2 Background = Some made /\
   upstream_checksum W made tctx = Some "def" /\
   "def" <> "abc" /\
   download W made tctx = inl (Some body)) /\
  r = (Some body, "def", None) /\
  fingerprint_of r <> "abc" /\
  error_of r <> Some driver.Unchanged.
Proof.
  cbv zeta.
  assert (Hdiff : "def" <> "abc") by discriminate.
  split.
  - split; [ reflexivity | split; [ reflexivity | split; [ exact Hdiff | reflexivity ] ] ].
  - destruct (@Fetch_changed_returns_checksum externals (upstream "def" body)
                linux2 Background "abc" made "def" eq_refl eq_refl Hdiff)
      as (Hnot & _ & Hsuccess).
    destruct (Hsuccess (Some body) eq_refl) as [Hresult Hnew].
    split; [ exact Hresult | split; [ exact Hnew | exact Hnot ] ].
Defined.

Lemma Fetch_error_returns_nothing_witness :
  let r := snd (aws.value (aws.Fetch unreachable linux2 Background "abc")) in
  error_of r <> None /\ stream_of r = None /\ fingerprint_of r = "".
Proof.
  cbv zeta.
  assert (Herr : error_of (snd (aws.value
            (aws.Fetch unreachable linux2 Background "abc"))) <> None)
    by discriminate.
  split; [ exact Herr | ].
  destruct (@Fetch_error_returns_nothing externals unreachable linux2
              Background "abc" Herr) as (Hstream & Hfp & _).
  split; assumption.
Defined.



Lemma Parse_complete_witness :
  (@aws.xml_Decode externals body = inl {| alas.Updates_ := [first; third] |} /\
   [first; third] = [] ++ first :: [third] /\
   Forall date_parses [first; third]) /\
  exists issued before rest,
    issued_at first issued /\
    built linux2 [] before /\ built linux2 [third] rest /\
    aws.Parse linux2 body = (before ++ records_for linux2 first issued ++ rest, None) /\
    List.length (records_for linux2 first issued) = 2 /\
    Forall2
      (fun pkg v => advisory_fields linux2 first issued v /\ package_fields pkg v)
      (alas.Packages first) (records_for linux2 first issued).
Proof.
  assert (Hdates : Forall date_parses [first; third])
    by (repeat constructor; eexists; reflexivity).
  split; [ split; [ reflexivity | split; [ reflexivity | exact Hdates ] ] | ].
  exact (@Parse_complete externals linux2 body
           {| alas.Updates_ := [first; third] |} [] [third] first
           eq_refl eq_refl Hdates).
Defined.

Lemma Parse_stops_at_bad_date_witness :
  let err := errorString "parsing time: cannot parse" in
  let contents := document [first; malformed; third] in
  (aws.xml_Decode contents =
     inl {| alas.Updates_ := [first; malformed; third] |} /\
   issued_at first "2018-01-18 00:26" /\ date_error malformed err) /\
  aws.Parse linux2 contents =
    (records_for linux2 first "2018-01-18 00:26", Some err) /\
  List.length (fst (aws.Parse linux2 contents)) = 2.
Proof.
  cbv zeta.
  split; [ split; [ reflexivity | split; reflexivity ] | ].
  destruct (@Parse_stops_at_bad_date externals linux2
              (document [first; malformed; third])
              {| alas.Updates_ := [first; malformed; third] |} eq_refl)
    as [_ Hsecond].
  rewrite (Hsecond first malformed third "2018-01-18 00:26"
             (errorString "parsing time: cannot parse")
             eq_refl eq_refl eq_refl).
  split; reflexivity.
Defined.

Lemma Configure_mirrors_witness :
  let W := unreachable in
  let ms := ["http://a.example/"; "http://b.example/"] in
  let r := @aws.Configure externals W linux2 Background (decode ms) (Some 7) in
  (decode ms linux2 = (decoded ms, None) /\
   mirrors_parse ms ms) /\
  aws.log r = [] /\
  aws.value r =
    ({| aws.release := "linux2"; aws.Timeout := (30 * Second)%Z;
        aws.Mirrors := ms;
        aws.client := Some {| aws.c := Some 7; aws.mirrors := ms |} |},
     None).
Proof.
  cbv zeta.
  assert (Hparse : mirrors_parse ["http://a.example/"; "http://b.example/"]
                                 ["http://a.example/"; "http://b.example/"])
    by (repeat constructor).
  split; [ split; [ reflexivity | exact Hparse ] | ].
  destruct (@Configure_mirrors externals unreachable linux2 Background
              (decode ["http://a.example/"; "http://b.example/"]) (Some 7)
              (decoded ["http://a.example/"; "http://b.example/"])
              None eq_refl) as [_ Hok].
  destruct (Hok eq_refl) as (_ & Hexplicit & _).
  destruct (Hexplicit _ ltac:(discriminate) Hparse) as [Hvalue Hlog].
  split; [ exact Hlog | exact Hvalue ].
Defined.

Lemma Locker_mutual_exclusion_witness :
  let key := "aws-linux2-updater" in
  let other := "aws-linux1-updater" in
  let ops := [ distlock.DoTryLock 1 key; distlock.DoLock 2 other ] in
  let later := [ distlock.DoUnlock 2; distlock.DoTryLock 3 key;
                 distlock.DoLock 3 other; distlock.DoUnlock 3 ] in
  let t := distlock.run (ops ++ later) in
  (distlock.holds (distlock.run ops) 1 key = true /\
   Forall (fun o => o <> distlock.DoUnlock 1) later) /\
  distlock.holds t 1 key = true /\
  distlock.TryLock t 3 key = (false, None, t) /\
  distlock.Lock t 3 key = None /\
  distlock.holds (snd (distlock.Unlock (distlock.run ops) 1)) 2 other = true /\
  exists t',
    distlock.TryLock (snd (distlock.Unlock (distlock.run ops) 1)) 3 key =
    (true, None, t').
Proof.
  cbv zeta.
  assert (Hlater : Forall (fun o => o <> distlock.DoUnlock 1)
            [ distlock.DoUnlock 2; distlock.DoTryLock 3 "aws-linux2-updater";
              distlock.DoLock 3 "aws-linux1-updater"; distlock.DoUnlock 3 ]).
  { repeat (constructor; [ discriminate | ]). constructor. }
  split; [ split; [ reflexivity | exact Hlater ] | ].
  destruct (@Locker_mutual_exclusion
              [ distlock.DoTryLock 1 "aws-linux2-updater";
                distlock.DoLock 2 "aws-linux1-updater" ]
              "aws-linux2-updater" 1 eq_refl)
    as (_ & _ & Hstays & _ & _ & _ & Hothers & Hfree).
  destruct (Hstays _ Hlater) as (Hstill & _ & Hbusy).
  destruct (Hbusy 3) as [Htry Hlock].
  split; [ exact Hstill | ].
  split; [ exact Htry | split; [ exact Hlock | ] ].
  split.
  - rewrite (Hothers 2 "aws-linux1-updater" ltac:(discriminate)). reflexivity.
  - destruct (Hfree 3 eq_refl) as [[t' [Hacq _]] _].
    exists t'. exact Hacq.
Defined.

End Runs.

(* ================================================================== *)
(** * Further properties of the code *)

Section FetchProperties.

Context {E : aws.Externals}.

Implicit Types (W : aws.Upstream) (u : aws.Updater) (ctx : Context).

(** The paths through [Fetch], with the answer of each call named. *)
Ltac fetch_paths W u ctx :=
  unfold aws.Fetch, calls_through, download, client_used, upstream_checksum;
  destruct (aws.client u) as [bound|] eqn:Hbound;
  [ | destruct (aws.NewClient W ctx (aws.release u)) as [bound|e0] eqn:Hmade ];
  cbn [aws.bind aws.ret aws.call aws.value aws.log fst snd app];
  try (destruct (aws.Client_RepoMD W bound (WithTimeout ctx (aws.Timeout u)))
         as [cl1 [md|e1]] eqn:Hmd;
       cbn [aws.bind aws.ret aws.call aws.value aws.log fst snd app];
       [ destruct (aws.RepoMD_Repo md aws.UpdateInfo "") as [repo|e2] eqn:Hrepo;
         cbn [aws.bind aws.ret aws.call aws.value aws.log fst snd app];
         [ destruct (aws.Client_Updates W cl1 (WithTimeout ctx (aws.Timeout u)))
             as [cl2 [rc|e3]] eqn:Hupd;
           cbn [aws.bind aws.ret aws.call aws.value aws.log fst snd app]
         | ]
       | ]).

(** The first call of [Fetch]: the metadata through the bound client, or
    the creation of a client when none is bound. *)
Lemma Fetch_first_call W u ctx (prior : driver.Fingerprint) :
  let calls := aws.log (aws.Fetch W u ctx prior) in
  match aws.client u with
  | Some _ =>
      (exists rest,
         calls = aws.CallRepoMD (WithTimeout ctx (aws.Timeout u)) :: rest) /\
      (forall cx r, ~ In (aws.CallNewClient cx r) calls)
  | None => exists rest, calls = aws.CallNewClient ctx (aws.release u) :: rest
  end.
Proof.
  cbv zeta.
  fetch_paths W u ctx;
    try (split; [ eexists; reflexivity | ];
         intros cx r Hin; simpl in Hin;
         repeat (destruct Hin as [Hin|Hin]; [ discriminate Hin | ]);
         exact Hin);
    eexists; reflexivity.
Qed.

(** X1: the calls of [Fetch] are determined by the bound client and by what
    the metadata holds.  A client is created, under the caller's context,
    only when none is bound; the metadata is requested when there is a
    client; the updates are downloaded only when the metadata was read and
    has an entry for them; both requests run under
    [WithTimeout ctx u.Timeout]. *)
Theorem Fetch_calls W u ctx (prior : driver.Fingerprint) :
  aws.log (aws.Fetch W u ctx prior) =
    match aws.client u with
    | Some _ => []
    | None => [aws.CallNewClient ctx (aws.release u)]
    end ++
    match client_used W u ctx with
    | Some cl => calls_through W cl (WithTimeout ctx (aws.Timeout u))
    | None => []
    end.
Proof.
  fetch_paths W u ctx; reflexivity.
Qed.

(** X2: [Fetch] returns a nil error exactly when it has a client, the
    metadata is read and has an entry for the updates, and the download
    succeeds; it then returns the downloaded stream and the checksum of that
    entry. *)
Theorem Fetch_succeeds_iff W u ctx (prior : driver.Fingerprint) :
  let tctx := WithTimeout ctx (aws.Timeout u) in
  let r := snd (aws.value (aws.Fetch W u ctx prior)) in
  (error_of r = None ->
   exists cl sum rc,
     client_used W u ctx = Some cl /\
     upstream_checksum W cl tctx = Some sum /\
     download W cl tctx = inl rc /\
     r = (rc, sum, None)) /\
  (forall cl sum body,
     client_used W u ctx = Some cl ->
     upstream_checksum W cl tctx = Some sum ->
     download W cl tctx = inl body ->
     r = (body, sum, None)).
Proof.
  cbv zeta. split.
  - fetch_paths W u ctx; unfold error_of; cbn [fst snd]; intro Herr;
      try discriminate Herr;
      exists bound; rewrite Hmd; cbn [fst snd]; rewrite Hrepo, Hupd;
      eexists; eexists; repeat split; reflexivity.
  - intros cl sum body. fetch_paths W u ctx; intros Hcl Hsum Hdl;
      try discriminate Hcl; injection Hcl as <-;
      rewrite Hmd in Hsum, Hdl; cbn [fst snd] in Hsum, Hdl;
      try discriminate Hsum; rewrite Hrepo in Hsum; try discriminate Hsum;
      rewrite Hupd in Hdl; cbn [snd] in Hdl; try discriminate Hdl;
      injection Hsum as <-; injection Hdl as <-; reflexivity.
Qed.

(** X3: [Fetch] leaves the release, the timeout and the mirror list of the
    Updater as they are.  It does not keep the client it creates: an Updater
    without a client is unchanged, one with a client still has one. *)
Theorem Fetch_frame W u ctx (prior : driver.Fingerprint) :
  let u' := fst (aws.value (aws.Fetch W u ctx prior)) in
  aws.release u' = aws.release u /\
  aws.Timeout u' = aws.Timeout u /\
  aws.Mirrors u' = aws.Mirrors u /\
  (aws.client u = None -> u' = u) /\
  (aws.client u <> None -> aws.client u' <> None).
Proof.
  cbv zeta.
  fetch_paths W u ctx; unfold aws.keep_client; rewrite ?Hbound;
    cbn [aws.set_client aws.release aws.Timeout aws.Mirrors aws.client];
    repeat split; auto; try discriminate; intros; congruence.
Qed.

End FetchProperties.

Section ParseProperties.

Context {E : aws.Externals}.

Implicit Types (u : aws.Updater) (partial : aws.Vulnerability).

Lemma unpack_pointwise u partial (pkgs : list alas.Package) :
  aws.unpack u partial pkgs = map (unpacked partial) pkgs.
Proof.
  unfold aws.unpack. rewrite fold_left_snoc_map. reflexivity.
Qed.

Lemma unpack_length u partial (pkgs : list alas.Package) :
  List.length (aws.unpack u partial pkgs) = List.length pkgs.
Proof. rewrite unpack_pointwise. apply length_map. Qed.

(** What holds of the records of every advisory holds of the result of the
    loop. *)
Lemma Parse_loop_all (P : aws.Vulnerability -> Prop) u dist :
  (forall update issued,
     Forall P (aws.unpack u (aws.partial_of u dist update issued)
                 (alas.Packages update))) ->
  forall updates vulns,
    Forall P vulns -> Forall P (fst (aws.Parse_loop u dist updates vulns)).
Proof.
  intros Hstep updates.
  induction updates as [|update rest IH]; intros vulns Hvulns; simpl; auto.
  destruct (aws.time_Parse _ _) as [issued|err]; simpl; auto.
  apply IH, Forall_app. split; [ assumption | apply Hstep ].
Qed.

(** The loop only appends to the records it starts from. *)
Lemma Parse_loop_from u dist (updates : list alas.Update) :
  forall vulns,
    aws.Parse_loop u dist updates vulns =
    (vulns ++ fst (aws.Parse_loop u dist updates []),
     snd (aws.Parse_loop u dist updates [])).
Proof.
  induction updates as [|update rest IH]; intro vulns; simpl.
  - rewrite app_nil_r. reflexivity.
  - destruct (aws.time_Parse _ _) as [issued|err]; simpl.
    + rewrite IH. rewrite (IH (aws.unpack _ _ _)). simpl.
      rewrite app_assoc. reflexivity.
    + rewrite app_nil_r. reflexivity.
Qed.

Lemma Parse_loop_app u dist (front back : list alas.Update) :
  forall vulns,
    aws.Parse_loop u dist (front ++ back) vulns =
    match aws.Parse_loop u dist front vulns with
    | (recs, None) => aws.Parse_loop u dist back recs
    | stopped => stopped
    end.
Proof.
  induction front as [|update rest IH]; intro vulns; simpl; [ reflexivity | ].
  destruct (aws.time_Parse _ _) as [issued|err]; [ apply IH | reflexivity ].
Qed.

Lemma Parse_loop_length u dist (updates : list alas.Update) :
  forall vulns,
    let r := aws.Parse_loop u dist updates vulns in
    List.length (fst r) <= List.length vulns + package_count updates /\
    (snd r = None ->
     List.length (fst r) = List.length vulns + package_count updates).
Proof.
  unfold package_count.
  induction updates as [|update rest IH]; intro vulns; simpl.
  - split; [ lia | intros _; lia ].
  - destruct (aws.time_Parse _ _) as [issued|err]; simpl.
    + destruct (IH (vulns ++ aws.unpack u (aws.partial_of u dist update issued)
                                 (alas.Packages update))) as [Hle Heq].
      rewrite length_app, unpack_length in Hle, Heq.
      split; [ lia | intro Hnil; specialize (Heq Hnil); lia ].
    + split; [ lia | discriminate ].
Qed.

Lemma Parse_loop_nil_error u dist (updates : list alas.Update) :
  forall vulns,
    snd (aws.Parse_loop u dist updates vulns) = None <->
    Forall date_parses updates.
Proof.
  induction updates as [|update rest IH]; intro vulns; simpl.
  - split; [ constructor | reflexivity ].
  - destruct (aws.time_Parse _ _) as [issued|err] eqn:Hdate; simpl.
    + rewrite IH. split.
      * intro Hrest. constructor; [ exists issued; exact Hdate | assumption ].
      * intro Hall. inversion Hall; assumption.
    + split; [ discriminate | ].
      intro Hall. inversion Hall as [|? ? [issued Hissued] _]; subst.
      unfold issued_at in Hissued. congruence.
Qed.

(** X4: every record [Parse] returns, on success or with an error, names the
    Updater that parsed it and carries the distribution of its release. *)
Theorem Parse_names_updater u (contents : aws.ReadCloser) :
  Forall
    (fun v => claircore.Updater v = aws.Name u /\
              claircore.Dist v = aws.releaseToDist (aws.release u))
    (fst (aws.Parse u contents)).
Proof.
  unfold aws.Parse.
  destruct (aws.xml_Decode contents) as [doc|err]; simpl; [ | constructor ].
  apply Parse_loop_all; [ | constructor ].
  intros update issued. rewrite unpack_pointwise.
  apply Forall_map, Forall_forall. intros pkg _. split; reflexivity.
Qed.

(** X5: [Parse] returns a nil error exactly when the content decodes and the
    issue date of every advisory parses, advisories without packages
    included.  The number of records never exceeds the number of affected
    packages in the document, and equals it when the error is nil. *)
Theorem Parse_succeeds_iff u (contents : aws.ReadCloser) :
  (snd (aws.Parse u contents) = None <->
   exists doc, aws.xml_Decode contents = inl doc /\
               Forall date_parses (alas.Updates_ doc)) /\
  (forall doc,
     aws.xml_Decode contents = inl doc ->
     List.length (fst (aws.Parse u contents)) <= package_count (alas.Updates_ doc) /\
     (snd (aws.Parse u contents) = None ->
      List.length (fst (aws.Parse u contents)) = package_count (alas.Updates_ doc))).
Proof.
  unfold aws.Parse. split.
  - destruct (aws.xml_Decode contents) as [doc|err]; simpl.
    + rewrite Parse_loop_nil_error. split.
      * intro Hall. exists doc. split; [ reflexivity | assumption ].
      * intros [doc' [Hdoc Hall]]. injection Hdoc as <-. assumption.
    + split; [ discriminate | intros [doc [Hdoc _]]; discriminate ].
  - intros doc ->.
    apply (Parse_loop_length u (aws.releaseToDist (aws.release u))
             (alas.Updates_ doc) []).
Qed.

(** X6: [Parse] works through a document from front to back.  For a
    document made of the advisories of one document followed by those of
    another, it returns the records of the first followed by the records
    and the error of the second when the first parses without error, and
    exactly the result of the first otherwise. *)
Theorem Parse_app u (c1 c2 c12 : aws.ReadCloser) (d1 d2 d12 : alas.Updates) :
  aws.xml_Decode c1 = inl d1 ->
  aws.xml_Decode c2 = inl d2 ->
  aws.xml_Decode c12 = inl d12 ->
  alas.Updates_ d12 = alas.Updates_ d1 ++ alas.Updates_ d2 ->
  aws.Parse u c12 =
    match snd (aws.Parse u c1) with
    | None => (fst (aws.Parse u c1) ++ fst (aws.Parse u c2), snd (aws.Parse u c2))
    | Some err => aws.Parse u c1
    end.
Proof.
  intros H1 H2 H12 Happ. unfold aws.Parse. rewrite H1, H2, H12, Happ.
  rewrite Parse_loop_app.
  destruct (aws.Parse_loop u _ (alas.Updates_ d1) []) as [recs [err|]]; simpl;
    [ reflexivity | ].
  apply Parse_loop_from.
Qed.

(** X7: the fixed-in version of a record [Parse] returns is never the empty
    string: it holds the separator "-" even when the package has neither a
    version nor a release. *)
Theorem Parse_fixed_in_version_not_empty u (contents : aws.ReadCloser) :
  Forall (fun v => claircore.FixedInVersion v <> ""%string)
    (fst (aws.Parse u contents)).
Proof.
  unfold aws.Parse.
  destruct (aws.xml_Decode contents) as [doc|err]; simpl; [ | constructor ].
  apply Parse_loop_all; [ | constructor ].
  intros update issued. rewrite unpack_pointwise.
  apply Forall_map, Forall_forall. intros pkg _. simpl.
  destruct (alas.Version pkg); discriminate.
Qed.

(** X8: [unpack] returns one record per package, in the order of the
    packages, whatever the partial record holds: each has the advisory
    fields that [Parse] fills in as the partial record has them, and the
    name, the kind "binary" and the fixed-in version of its own package in
    place of what the partial record has as package and fixed-in version. *)
Theorem unpack_each_package u partial (pkgs : list alas.Package) :
  Forall2
    (fun pkg v => same_advisory_fields v partial /\ package_fields pkg v)
    pkgs (aws.unpack u partial pkgs).
Proof.
  rewrite unpack_pointwise.
  induction pkgs as [|pkg pkgs IH]; simpl; constructor; auto.
  split; [ unfold same_advisory_fields | unfold package_fields ];
    simpl; repeat split; reflexivity.
Qed.

End ParseProperties.

Section NameAndLinks.

Context {E : aws.Externals}.

Lemma append_length (s t : string) :
  String.length (s ++ t) = String.length s + String.length t.
Proof. induction s as [|a s IH]; simpl; [ | rewrite IH ]; reflexivity. Qed.

Lemma append_assoc (r s t : string) : ((r ++ s) ++ t = r ++ (s ++ t))%string.
Proof. induction r as [|a r IH]; simpl; [ | rewrite IH ]; reflexivity. Qed.

(** A common suffix can be dropped from an equation between strings. *)
Lemma append_same_suffix (tail : string) : forall s s' : string,
  (s ++ tail = s' ++ tail)%string -> s = s'.
Proof.
  induction s as [|a s IH]; intros [|a' s'] Heq; simpl in Heq.
  - reflexivity.
  - apply (f_equal String.length) in Heq. simpl in Heq.
    rewrite append_length in Heq. lia.
  - apply (f_equal String.length) in Heq. simpl in Heq.
    rewrite append_length in Heq. lia.
  - injection Heq as -> Heq. f_equal. apply IH. assumption.
Qed.

(** X10: two Updaters have the same name exactly when their releases are
    printed alike: the name determines the printed release. *)
Theorem Name_injective (u u' : aws.Updater) :
  aws.Name u = aws.Name u' <->
  aws.Release_fmt (aws.release u) = aws.Release_fmt (aws.release u').
Proof.
  unfold aws.Name. split; [ | intros ->; reflexivity ].
  intro Heq. simpl in Heq. injection Heq as Heq.
  eapply append_same_suffix; eassumption.
Qed.

(** Joining with a separator, one more element at the front. *)
Lemma concat_cons (sep x : string) (l : list string) :
  l <> [] -> String.concat sep (x :: l) = (x ++ sep ++ String.concat sep l)%string.
Proof. destruct l; [ congruence | reflexivity ]. Qed.

Lemma concat_app (sep : string) (l1 l2 : list string) :
  l1 <> [] -> l2 <> [] ->
  String.concat sep (l1 ++ l2) =
  (String.concat sep l1 ++ sep ++ String.concat sep l2)%string.
Proof.
  intros H1 H2. induction l1 as [|x l1 IH]; [ congruence | ].
  destruct l1 as [|y l1].
  - simpl app. rewrite concat_cons by assumption. reflexivity.
  - change ((x :: y :: l1) ++ l2) with (x :: ((y :: l1) ++ l2)).
    rewrite concat_cons by discriminate.
    rewrite IH by discriminate.
    rewrite (concat_cons sep x (l := y :: l1)) by discriminate.
    rewrite !append_assoc. reflexivity.
Qed.

(** X9: [refsToLinks] puts one space between the links of consecutive
    references and none at either end.  Without references the result is
    empty; the links of two non-empty runs of references are the links of
    each, with one space between them; an empty run adds nothing. *)
Theorem refsToLinks_app (u1 u2 u12 : alas.Update) :
  alas.References u12 = alas.References u1 ++ alas.References u2 ->
  (alas.References u1 = [] -> aws.refsToLinks u1 = ""%string /\
                              aws.refsToLinks u12 = aws.refsToLinks u2) /\
  (alas.References u2 = [] -> aws.refsToLinks u12 = aws.refsToLinks u1) /\
  (alas.References u1 <> [] -> alas.References u2 <> [] ->
   aws.refsToLinks u12 =
   (aws.refsToLinks u1 ++ " " ++ aws.refsToLinks u2)%string).
Proof.
  intro Hrefs. rewrite !refsToLinks_join, Hrefs.
  split; [ | split ].
  - intros ->. split; reflexivity.
  - intros ->. rewrite app_nil_r. reflexivity.
  - intros H1 H2. rewrite map_app. apply concat_app.
    + destruct (alas.References u1); [ congruence | discriminate ].
    + destruct (alas.References u2); [ congruence | discriminate ].
Qed.

End NameAndLinks.

Section ConfigureProperties.

Context {E : aws.Externals}.

Implicit Types (W : aws.Upstream) (u : aws.Updater) (ctx : Context)
  (f : driver.ConfigUnmarshaler aws.Updater) (c : option aws.http_Client).

(** The loop over the mirror list leaves at the first entry that does not
    parse, with the mirrors parsed so far. *)
Lemma Configure_loop_stops (good : list string) (urls : list aws.URL)
    (bad : string) (rest : list string) (e : error) :
  mirrors_parse good urls -> aws.url_Parse bad = inr e ->
  forall acc,
    aws.Configure_loop (good ++ bad :: rest) acc =
    (acc ++ urls, Some (Errorf_w "failed to create client: " e)).
Proof.
  induction 1 as [|m mu good urls Hm _ IH]; intros Hbad acc; simpl.
  - rewrite Hbad, app_nil_r. reflexivity.
  - rewrite Hm, (IH Hbad), <- app_assoc. reflexivity.
Qed.

(** The fields of the Updater after [Configure], given the Updater
    [decoded] that the ConfigUnmarshaler left. *)
Lemma Configure_fields W u ctx f c (decoded : aws.Updater)
    (err : option error) :
  f u = (decoded, err) ->
  let u' := fst (aws.value (aws.Configure W u ctx f c)) in
  same_settings u' decoded /\
  (err = None -> aws.client u' <> None) /\
  (err <> None -> u' = decoded).
Proof.
  intro Hf. cbv zeta. unfold aws.Configure, same_settings. rewrite Hf.
  destruct err as [e|]; cbn [aws.ret aws.value fst snd].
  - repeat split; try reflexivity. intro Hnone; discriminate Hnone.
  - cbn [aws.mirrors].
    destruct (aws.Configure_loop (aws.Mirrors decoded) []) as [parsed [e|]];
      [ | destruct (Nat.eqb (List.length parsed) 0);
          [ cbn [aws.bind aws.call];
            destruct (aws.Client_getMirrors W _ _ _) as [cl [e|]] | ] ];
      cbn [aws.ret aws.value fst snd app];
      repeat split; try reflexivity; try discriminate;
      intro Hne; exfalso; apply Hne; reflexivity.
Qed.

(** [Configure] reads of the Updater what the ConfigUnmarshaler leaves as
    its release, timeout and mirror list. *)
Lemma Configure_reads W (u1 u2 : aws.Updater) ctx f c
    (decoded1 decoded2 : aws.Updater) :
  f u1 = (decoded1, None) ->
  f u2 = (decoded2, None) ->
  same_settings decoded1 decoded2 ->
  aws.Configure W u1 ctx f c = aws.Configure W u2 ctx f c.
Proof.
  intros H1 H2 (Hrel & Htimeout & Hms). unfold aws.Configure. rewrite H1, H2.
  destruct decoded1 as [rel1 timeout1 ms1 bound1].
  destruct decoded2 as [rel2 timeout2 ms2 bound2].
  cbn [aws.release aws.Timeout aws.Mirrors] in Hrel, Htimeout, Hms. subst.
  reflexivity.
Qed.

(** X11: when the ConfigUnmarshaler succeeds, [Configure] depends on the
    Updater only through the release, the timeout and the mirror list that
    the ConfigUnmarshaler leaves: it starts from a new client, so the client
    bound before and the mirrors of an earlier [Configure] are not kept.
    Configuring a second time, with a ConfigUnmarshaler that decodes the same
    settings again, makes the same calls and gives the same Updater and
    error as the first time. *)
Theorem Configure_replaces_client W u ctx f c (decoded : aws.Updater) :
  f u = (decoded, None) ->
  (forall u2 decoded2,
     f u2 = (decoded2, None) -> same_settings decoded2 decoded ->
     aws.Configure W u2 ctx f c = aws.Configure W u ctx f c) /\
  (forall again,
     f (fst (aws.value (aws.Configure W u ctx f c))) = (again, None) ->
     same_settings again decoded ->
     aws.Configure W (fst (aws.value (aws.Configure W u ctx f c))) ctx f c =
     aws.Configure W u ctx f c).
Proof.
  intro Hf. split.
  - intros u2 decoded2 H2 Hsame.
    exact (Configure_reads W u2 u ctx f c H2 Hf Hsame).
  - intros again Hagain Hsame.
    exact (Configure_reads W _ u ctx f c Hagain Hf Hsame).
Qed.

(** X12: when an entry of the decoded mirror list does not parse,
    [Configure] returns the error of [url.Parse] wrapped under "failed to
    create client: ", makes no call upstream, does not look at the entries
    after it, and leaves the Updater with the decoded settings and a client
    that has the mirrors parsed before the entry. *)
Theorem Configure_bad_mirror W u ctx f c (decoded : aws.Updater)
    (good rest : list string) (bad : string) (urls : list aws.URL)
    (e : error) :
  f u = (decoded, None) ->
  aws.Mirrors decoded = good ++ bad :: rest ->
  mirrors_parse good urls ->
  aws.url_Parse bad = inr e ->
  aws.log (aws.Configure W u ctx f c) = [] /\
  aws.value (aws.Configure W u ctx f c) =
    (aws.set_client decoded (Some {| aws.c := c; aws.mirrors := urls |}),
     Some (wrapError ("failed to create client: " ++ Error e) e)).
Proof.
  intros Hf Hms Hgood Hbad. unfold aws.Configure. rewrite Hf.
  cbn [aws.mirrors]. rewrite Hms.
  rewrite (Configure_loop_stops bad rest Hgood Hbad). split; reflexivity.
Qed.

(** X13: what [Configure] leaves decides how [Fetch] starts.  When the
    ConfigUnmarshaler succeeded, also when [Configure] then failed on a
    mirror, [Fetch] creates no client and first requests the metadata under
    the decoded timeout.  When the ConfigUnmarshaler failed and left the
    Updater without a client, [Fetch] still starts by creating one. *)
Theorem Configure_then_Fetch W u ctx f c (decoded : aws.Updater)
    (err : option error)
    (W' : aws.Upstream) (ctx' : Context) (prior : driver.Fingerprint) :
  f u = (decoded, err) ->
  let u' := fst (aws.value (aws.Configure W u ctx f c)) in
  let calls := aws.log (aws.Fetch W' u' ctx' prior) in
  (err = None ->
   (exists rest,
      calls = aws.CallRepoMD (WithTimeout ctx' (aws.Timeout decoded)) :: rest) /\
   (forall cx r, ~ In (aws.CallNewClient cx r) calls)) /\
  (err <> None -> aws.client decoded = None ->
   exists rest, calls = aws.CallNewClient ctx' (aws.release decoded) :: rest).
Proof.
  intros Hf u' calls.
  destruct (Configure_fields W u ctx f c Hf)
    as ((Hrel & Htimeout & _) & Hok & Hfail).
  fold u' in Hrel, Htimeout, Hok, Hfail.
  clearbody u'. subst calls.
  pose proof (Fetch_first_call W' u' ctx' prior) as Hfirst.
  cbv zeta in Hfirst.
  split.
  - intro Herr. specialize (Hok Herr).
    destruct (aws.client u') as [cl|]; [ | congruence ].
    rewrite Htimeout in Hfirst. exact Hfirst.
  - intros Herr Hnone. specialize (Hfail Herr). subst u'.
    rewrite Hnone in Hfirst. exact Hfirst.
Qed.

End ConfigureProperties.

Section InsertScannerListProperties.

Context {D : postgres.Database}.

Lemma executed_next (ctx : Context) (hash : postgres.Digest)
    (pool : postgres.Pool) (a k : nat) :
  executed ctx hash pool a (S k) =
  executed ctx hash
    (fst (postgres.Exec pool ctx postgres.insert_scannerlist hash (Z.of_nat a)))
    (S a) k.
Proof. reflexivity. Qed.

(** The loop from the scanner id [a] on, with fuel for the ids left. *)
Lemma InsertScannerList_loop_runs (ctx : Context) (hash : postgres.Digest)
    (n : Z) (fuel : nat) :
  forall (a : nat) (pool : postgres.Pool),
    Z.to_nat n - a <= fuel ->
    exists k err,
      postgres.InsertScannerList_loop fuel ctx pool hash n (Z.of_nat a) =
        Some (map (postgres.insertion hash) (seq a k),
              executed ctx hash pool a k, err) /\
      a + k <= Nat.max a (Z.to_nat n) /\
      (err = None ->
         a + k = Nat.max a (Z.to_nat n) /\
         forall j, j < k -> outcome ctx hash pool a j = None) /\
      (forall e, err = Some e ->
         exists k', k = S k' /\
           (forall j, j < k' -> outcome ctx hash pool a j = None) /\
           outcome ctx hash pool a k' = Some e).
Proof.
  induction fuel as [|fuel IH]; intros a pool Hfuel.
  - simpl. destruct (Z.of_nat a <? n)%Z eqn:Hlt.
    + apply Z.ltb_lt in Hlt. lia.
    + apply Z.ltb_ge in Hlt. exists 0, None.
      split; [ reflexivity | ]. split; [ lia | ].
      split; [ intros _; split; [ lia | intros j Hj; lia ] | discriminate ].
  - simpl. destruct (Z.of_nat a <? n)%Z eqn:Hlt.
    + apply Z.ltb_lt in Hlt.
      destruct (postgres.Exec pool ctx postgres.insert_scannerlist hash
                  (Z.of_nat a)) as [pool1 [e|]] eqn:Hexec.
      * exists 1, (Some e).
        split; [ unfold executed; simpl; rewrite Hexec; reflexivity | ].
        split; [ lia | ]. split; [ discriminate | ].
        intros e' He'. injection He' as <-. exists 0.
        split; [ reflexivity | ]. split; [ intros j Hj; lia | ].
        unfold outcome, executed. simpl. rewrite Nat.add_0_r, Hexec.
        reflexivity.
      * destruct (IH (S a) pool1 ltac:(lia))
          as (k & err & Hloop & Hle & Hnil & Herr).
        replace (Z.of_nat a + 1)%Z with (Z.of_nat (S a)) by lia.
        rewrite Hloop. exists (S k), err.
        assert (Hshift : forall j,
                  outcome ctx hash pool a (S j) = outcome ctx hash pool1 (S a) j).
        { intro j. unfold outcome. rewrite executed_next, Hexec.
          replace (a + S j) with (S a + j) by lia. reflexivity. }
        assert (Hhead : outcome ctx hash pool a 0 = None).
        { unfold outcome, executed. simpl. rewrite Nat.add_0_r, Hexec.
          reflexivity. }
        split; [ rewrite executed_next, Hexec; reflexivity | ].
        split; [ lia | ]. split.
        -- intro H. destruct (Hnil H) as [Hall Hout].
           split; [ lia | ]. intros [|j] Hj; [ exact Hhead | ].
           rewrite Hshift. apply Hout. lia.
        -- intros e He. destruct (Herr e He) as (k' & -> & Hout & Hlast).
           exists (S k'). split; [ reflexivity | ]. split.
           ++ intros [|j] Hj; [ exact Hhead | ].
              rewrite Hshift. apply Hout. lia.
           ++ rewrite Hshift. exact Hlast.
    + apply Z.ltb_ge in Hlt. exists 0, None.
      split; [ reflexivity | ]. split; [ lia | ].
      split; [ intros _; split; [ lia | intros j Hj; lia ] | discriminate ].
Qed.

(** X14: [InsertScannerList] always returns.  It executes the insertions
    for the scanner ids 0, 1, 2, ... in this order, each on the database the
    one before left, all with the same manifest hash.  It stops at the first
    insertion that fails and returns its error; the insertions before it
    have been executed and are not undone.  It returns nil exactly when all
    [n] insertions have been executed and have succeeded; for [n <= 0] it
    executes nothing, leaves the database as it is and returns nil. *)
Theorem InsertScannerList_runs (ctx : Context) (pool : postgres.Pool)
    (hash : postgres.Digest) (n : Z) :
  exists k err,
    postgres.InsertScannerList ctx pool hash n =
      Some (map (postgres.insertion hash) (seq 0 k),
            executed ctx hash pool 0 k, err) /\
    k <= Z.to_nat n /\
    (err = None <->
       k = Z.to_nat n /\ forall j, j < k -> outcome ctx hash pool 0 j = None) /\
    (forall e, err = Some e ->
       exists k', k = S k' /\
         (forall j, j < k' -> outcome ctx hash pool 0 j = None) /\
         outcome ctx hash pool 0 k' = Some e) /\
    ((n <= 0)%Z -> k = 0 /\ err = None).
Proof.
  unfold postgres.InsertScannerList.
  destruct (InsertScannerList_loop_runs ctx hash n (fuel := Z.to_nat n) 0 pool
              ltac:(lia))
    as (k & err & Hloop & Hle & Hnil & Herr).
  exists k, err. simpl in *.
  split; [ exact Hloop | ].
  split; [ lia | ].
  split.
  { split.
    - intro H. destruct (Hnil H) as [Hk Hout]. split; [ lia | exact Hout ].
    - intros [Hk Hout]. destruct err as [e|]; [ | reflexivity ].
      destruct (Herr e eq_refl) as (k' & Hk' & _ & Hlast).
      rewrite Hout in Hlast by lia. discriminate. }
  split; [ exact Herr | ].
  intro Hn. assert (Hk : k = 0) by lia. split; [ exact Hk | ].
  destruct err as [e|]; [ | reflexivity ].
  destruct (Herr e eq_refl) as (k' & Hk' & _). lia.
Qed.

End InsertScannerListProperties.

(* ================================================================== *)
(** * The further properties at concrete inputs *)

Section MoreRuns.

Import sample.

#[local] Existing Instance externals.

Lemma Parse_app_witness :
  let c1 := document [first] in
  let c2 := document [malformed; third] in
  let c12 := document [first; malformed; third] in
  (aws.xml_Decode c1 = inl {| alas.Updates_ := [first] |} /\
   aws.xml_Decode c2 = inl {| alas.Updates_ := [malformed; third] |} /\
   aws.xml_Decode c12 = inl {| alas.Updates_ := [first; malformed; third] |} /\
   [first; malformed; third] = [first] ++ [malformed; third]) /\
  aws.Parse linux2 c12 =
    (records_for linux2 first "2018-01-18 00:26",
     Some (errorString "parsing time: cannot parse")).
Proof.
  cbv zeta.
  split; [ repeat split | ].
  rewrite (@Parse_app externals linux2
             (document [first]) (document [malformed; third])
             (document [first; malformed; third])
             {| alas.Updates_ := [first] |}
             {| alas.Updates_ := [malformed; third] |}
             {| alas.Updates_ := [first; malformed; third] |}
             eq_refl eq_refl eq_refl eq_refl).
  reflexivity.
Defined.

Lemma refsToLinks_app_witness :
  let both :=
    {| alas.ID := "ALAS-2018-942";
       alas.Description := "";
       alas.Issued := {| alas.Date := "2018-01-20 09:30" |};
       alas.Severity := "low";
       alas.References := alas.References first ++ alas.References third;
       alas.Packages := [] |} in
  alas.References both = alas.References first ++ alas.References third /\
  alas.References first <> [] /\ alas.References third <> [] /\
  aws.refsToLinks both =
    "http://cve.example/1 http://cve.example/2 http://cve.example/1 http://cve.example/2"%string.
Proof.
  cbv zeta.
  assert (H1 : alas.References first <> []) by discriminate.
  assert (H3 : alas.References third <> []) by discriminate.
  split; [ reflexivity | split; [ exact H1 | split; [ exact H3 | ] ] ].
  match goal with
  | |- aws.refsToLinks ?both = _ =>
      destruct (@refsToLinks_app first third both eq_refl)
        as (_ & _ & Hjoin)
  end.
  rewrite (Hjoin H1 H3). reflexivity.
Defined.

Lemma Configure_replaces_client_witness :
  let f := decode ["http://a.example/"] in
  let once := aws.Configure unreachable linux2 Background f (Some 7) in
  let bound := aws.set_client linux2 (Some made) in
  (f linux2 = (decoded ["http://a.example/"], None) /\
   snd (f (fst (aws.value once))) = None /\
   same_settings (fst (f (fst (aws.value once)))) (decoded ["http://a.example/"]) /\
   snd (f bound) = None /\
   same_settings (fst (f bound)) (decoded ["http://a.example/"])) /\
  aws.Configure unreachable (fst (aws.value once)) Background f (Some 7) = once /\
  aws.Configure unreachable bound Background f (Some 7) = once.
Proof.
  cbv zeta.
  split; [ repeat split | ].
  destruct (@Configure_replaces_client externals unreachable linux2 Background
              (decode ["http://a.example/"]) (Some 7)
              (decoded ["http://a.example/"]) eq_refl)
    as [Hany Htwice].
  split.
  - apply (Htwice _ eq_refl). repeat split.
  - apply (Hany (aws.set_client linux2 (Some made)) _ eq_refl). repeat split.
Defined.

Lemma Configure_bad_mirror_witness :
  let ms := ["http://a.example/"; ":bad"; "http://b.example/"] in
  let cause := errorString "parse: missing protocol scheme" in
  let r := aws.Configure (upstream "abc" body) linux2 Background (decode ms)
             (Some 7) in
  (decode ms linux2 = (decoded ms, None) /\
   aws.Mirrors (decoded ms) =
     ["http://a.example/"] ++ ":bad" :: ["http://b.example/"] /\
   mirrors_parse ["http://a.example/"] ["http://a.example/"] /\
   aws.url_Parse ":bad" = inr cause) /\
  aws.log r = [] /\
  snd (aws.value r) =
    Some (wrapError
            "failed to create client: parse: missing protocol scheme" cause) /\
  aws.client (fst (aws.value r)) =
    Some {| aws.c := Some 7; aws.mirrors := ["http://a.example/"] |}.
Proof.
  cbv zeta.
  assert (Hgood : mirrors_parse ["http://a.example/"] ["http://a.example/"])
    by (repeat constructor).
  split;
    [ split; [ reflexivity
             | split; [ reflexivity | split; [ exact Hgood | reflexivity ] ] ]
    | ].
  destruct (@Configure_bad_mirror externals (upstream "abc" body) linux2
              Background
              (decode ["http://a.example/"; ":bad"; "http://b.example/"])
              (Some 7)
              (decoded ["http://a.example/"; ":bad"; "http://b.example/"])
              ["http://a.example/"] ["http://b.example/"] ":bad"
              ["http://a.example/"]
              (errorString "parse: missing protocol scheme")
              eq_refl eq_refl Hgood eq_refl) as [Hlog Hvalue].
  split; [ exact Hlog | ]. rewrite Hvalue. split; reflexivity.
Defined.

Lemma Configure_then_Fetch_witness :
  let ms := ["http://a.example/"; ":bad"] in
  let u' := fst (aws.value
                   (aws.Configure unreachable linux2 Background (decode ms)
                      (Some 7))) in
  decode ms linux2 = (decoded ms, None) /\
  (exists rest,
     aws.log (aws.Fetch (upstream "abc" body) u' Background "") =
     aws.CallRepoMD (WithTimeout Background (30 * Second)%Z) :: rest).
Proof.
  cbv zeta. split; [ reflexivity | ].
  destruct (@Configure_then_Fetch externals unreachable linux2 Background
              (decode ["http://a.example/"; ":bad"]) (Some 7)
              (decoded ["http://a.example/"; ":bad"]) None
              (upstream "abc" body) Background "" eq_refl) as [Hok _].
  destruct (Hok eq_refl) as [Hfirst _]. exact Hfirst.
Defined.

End MoreRuns.

Section DatabaseRuns.

#[local] Existing Instance sample_db.database.

Lemma InsertScannerList_runs_witness :
  postgres.InsertScannerList Background [] "sha256:0a" 5 =
    Some (map (postgres.insertion "sha256:0a") (seq 0 4),
          [0; 1; 2]%Z,
          Some (errorString "ERROR: out of space")) /\
  exists k err,
    postgres.InsertScannerList Background [] "sha256:0a" 5 =
      Some (map (postgres.insertion "sha256:0a") (seq 0 k),
            executed Background "sha256:0a" [] 0 k, err) /\
    k <= 5.
Proof.
  split; [ reflexivity | ].
  destruct (@InsertScannerList_runs sample_db.database Background []
              "sha256:0a" 5) as (k & err & Hrun & Hle & _).
  exists k, err. split; [ exact Hrun | exact Hle ].
Defined.

End DatabaseRuns.
